(** * use-mcp-on-claude: the Obsidian vault adapter and the Brave rate budget

    A shallow embedding of [src/obsidianMcpServer.ts] and
    [src/braveSearch.ts], and the properties of the vault guard, the file
    tools, the content search, the response cache and the rate budget.

    Conventions.
    - A JavaScript string is a [string]; a character stands for one code
      unit in the range 0..255 (ASCII and Latin-1).
    - A JavaScript integer-valued number (counter, timestamp, byte size) is
      a [Z]; every value the code computes on them stays far below 2^53,
      where the arithmetic of doubles is exact.
    - [throw new Error(msg)] is the result [Throw msg]; a handler that
      catches reads the message back.
    - Module-level mutable objects ([requestCount], [resourceCache], the
      file system) are threaded as explicit state. *)

From stdpp Require Import gmap strings list sorting.
From Stdlib Require Import ZArith Ascii DecimalString.

Open Scope string_scope.
Open Scope list_scope.
Open Scope Z_scope.

(** ** Exceptions and state *)

Inductive result (A : Type) : Type :=
| Ok (a : A)
| Throw (message : string).
Arguments Ok {A} a.
Arguments Throw {A} message.

(** A computation over a mutable store [S] that may throw; the store
    survives a throw, as the mutations done before it do in JavaScript. *)
Definition M (S A : Type) : Type := S -> S * result A.

Definition ret {S A} (a : A) : M S A := fun s => (s, Ok a).
Definition throw {S A} (msg : string) : M S A := fun s => (s, Throw msg).
Definition bind {S A B} (m : M S A) (k : A -> M S B) : M S B :=
  fun s => match m s with
           | (s', Ok a) => k a s'
           | (s', Throw e) => (s', Throw e)
           end.
Definition try_catch {S A} (m : M S A) (handler : string -> M S A) : M S A :=
  fun s => match m s with
           | (s', Ok a) => (s', Ok a)
           | (s', Throw e) => handler e s'
           end.
Definition get {S} : M S S := fun s => (s, Ok s).
Definition put {S} (s : S) : M S unit := fun _ => (s, Ok tt).
Definition lift {S A} (r : result A) : M S A := fun s => (s, r).

Declare Scope js_scope.
Delimit Scope js_scope with js.
Notation "'let!' x ':=' m 'in' k" := (bind m (fun x => k))
  (at level 10, x pattern, m at level 100, k at level 200) : js_scope.
Notation "'do!' m 'in' k" := (bind m (fun _ => k))
  (at level 10, m at level 100, k at level 200) : js_scope.
Open Scope js_scope.

(** ** JavaScript strings *)

Definition nl : string := String (ascii_of_nat 10) "".
Definition dquote : string := String (ascii_of_nat 34) "".

(** [`${n}`] for a non-negative integer. *)
Definition Number_toString (n : Z) : string :=
  NilZero.string_of_uint (N.to_uint (Z.to_N n)).

(** [Array.prototype.join]. *)
Fixpoint Array_join (sep : string) (l : list string) : string :=
  match l with
  | [] => ""
  | [x] => x
  | x :: l' => x +:+ sep +:+ Array_join sep l'
  end.

(** [String.prototype.startsWith]. *)
Definition startsWith (s p : string) : bool := String.prefix p s.

(** [String.prototype.includes]: [p] occurs in [s] at some position. *)
Fixpoint includes (s p : string) : bool :=
  String.prefix p s ||
  match s with
  | "" => false
  | String _ s' => includes s' p
  end.

(** ** Brave search: the rate budget ([src/braveSearch.ts]) *)

Module Brave.

Definition RATE_LIMIT_perSecond : Z := 1.
Definition RATE_LIMIT_perMonth : Z := 15000.

Record requestCount := {
  second : Z;
  month : Z;
  lastReset : Z;
}.

Definition set_second (v : Z) (rc : requestCount) : requestCount :=
  {| second := v; month := month rc; lastReset := lastReset rc |}.
Definition set_month (v : Z) (rc : requestCount) : requestCount :=
  {| second := second rc; month := v; lastReset := lastReset rc |}.
Definition set_lastReset (v : Z) (rc : requestCount) : requestCount :=
  {| second := second rc; month := month rc; lastReset := v |}.

(** The first statement of [checkRateLimit]: the window reset. *)
Definition resetWindow (now : Z) (rc : requestCount) : requestCount :=
  if 1000 <? now - lastReset rc
  then set_lastReset now (set_second 0 rc)
  else rc.

(** [checkRateLimit()], with the value of [Date.now()] as argument. *)
Definition checkRateLimit (now : Z) : M requestCount unit :=
  fun rc =>
    let rc := resetWindow now rc in
    if RATE_LIMIT_perMonth <=? month rc
    then (rc, Throw "Monthly rate limit exceeded")
    else (set_month (month rc + 1) (set_second (second rc + 1) rc), Ok tt).

(** What [fetch] resolves to: the fields of the Response the code reads.
    [json] is the parsed body, or the error [response.json()] rejects
    with. *)
Record response (J : Type) := {
  ok : bool;
  status : Z;
  statusText : string;
  text : string;
  json : result J;
}.
Arguments ok {J} _.
Arguments status {J} _.
Arguments statusText {J} _.
Arguments text {J} _.
Arguments json {J} _.

(** [interface BraveWeb]; an optional field is an [option]. *)
Record webResult := {
  title : option string;
  description : option string;
  url : option string;
}.
Record locationRef := { id : option string }.
Record BraveWeb := {
  web_results : option (list webResult);
  locations_results : option (list locationRef);
}.

(** [x || ''] on an optional string. *)
Definition orEmpty (o : option string) : string := default "" o.

Definition apiError {J} (r : response J) : string :=
  "Brave API error: " +:+ Number_toString (status r) +:+ " " +:+
  statusText r +:+ nl +:+ text r.

(** The shared tail of every lookup: reject a non-ok response, then
    parse the body. *)
Definition readJson {S J} (fetched : result (response J)) : M S J :=
  let! r := lift fetched in
  if negb (ok r) then throw (apiError r) else lift (json r).

(** [performWebSearch]. [count] and [offset] only shape the request URL;
    [now] is [Date.now()] and [fetched] what [fetch] resolves to. *)
Definition performWebSearch (query : string) (count offset : Z)
    (now : Z) (fetched : result (response BraveWeb)) : M requestCount string :=
  do! checkRateLimit now in
  let! data := readJson fetched in
  let results :=
    map (fun r => (orEmpty (title r), orEmpty (description r), orEmpty (url r)))
        (default [] (web_results data)) in
  ret (Array_join (nl +:+ nl)
         (map (fun '(t, d, u) =>
                 "Title: " +:+ t +:+ nl +:+ "Description: " +:+ d +:+ nl +:+
                 "URL: " +:+ u) results)).

(** The guard and the increment that open [getPoisData] and
    [getDescriptionsData]. *)
Definition consumeMonthly : M requestCount unit :=
  fun rc =>
    if RATE_LIMIT_perMonth <=? month rc
    then (rc, Throw "Monthly rate limit exceeded")
    else (set_month (month rc + 1) rc, Ok tt).

Section LocalSearch.
(** The POI and description payloads are only handed to
    [formatLocalResults]; both stay abstract, with the formatter. *)
Variables BravePoiResponse BraveDescription : Type.
Variable formatLocalResults : BravePoiResponse -> BraveDescription -> string.

Definition getPoisData (ids : list string)
    (fetched : result (response BravePoiResponse)) : M requestCount BravePoiResponse :=
  do! consumeMonthly in readJson fetched.

Definition getDescriptionsData (ids : list string)
    (fetched : result (response BraveDescription)) : M requestCount BraveDescription :=
  do! consumeMonthly in readJson fetched.

(** Everything [performLocalSearch] asks of the outside, in the order
    it may ask: the clock and the response of the first web query, the
    clock and the response of the fallback web search, the POI and the
    description responses. *)
Record world := {
  now1 : Z;
  webResponse : result (response BraveWeb);
  now2 : Z;
  fallbackResponse : result (response BraveWeb);
  poisResponse : result (response BravePoiResponse);
  descriptionsResponse : result (response BraveDescription);
}.

(** [webData.locations?.results?.filter(r => r.id != null).map(r => r.id) || []] *)
Definition locationIds (webData : BraveWeb) : list string :=
  omap id (default [] (locations_results webData)).

(** [performLocalSearch]; [delay(1100)] only lets time pass. *)
Definition performLocalSearch (query : string) (count : Z) (w : world)
    : M requestCount string :=
  do! checkRateLimit (now1 w) in
  let! webData := readJson (webResponse w) in
  let ids := locationIds webData in
  if decide (ids = [])
  then performWebSearch query count 0 (now2 w) (fallbackResponse w)
  else
    let! poisData := getPoisData ids (poisResponse w) in
    let! descriptionsData := getDescriptionsData ids (descriptionsResponse w) in
    ret (formatLocalResults poisData descriptionsData).

(** A tool result: one text block and the [isError] flag. *)
Record toolResult := { content_text : string; isError : bool }.

Definition keySet (BRAVE_API_KEY : option string) : bool :=
  match BRAVE_API_KEY with
  | Some k => negb (String.eqb k "")
  | None => false
  end.

(** The [brave_local_search] handler. *)
Definition brave_local_search (BRAVE_API_KEY : option string)
    (query : string) (count : Z) (w : world) : requestCount -> requestCount * toolResult :=
  fun rc =>
    match (if keySet BRAVE_API_KEY
           then performLocalSearch query count w
           else throw "BRAVE_API_KEY environment variable is not set") rc with
    | (rc', Ok results) => (rc', {| content_text := results; isError := false |})
    | (rc', Throw e) => (rc', {| content_text := "Error: " +:+ e; isError := true |})
    end.

(** The [brave_web_search] handler. *)
Definition brave_web_search (BRAVE_API_KEY : option string)
    (query : string) (count offset : Z) (now : Z)
    (fetched : result (response BraveWeb)) : requestCount -> requestCount * toolResult :=
  fun rc =>
    match (if keySet BRAVE_API_KEY
           then performWebSearch query count offset now fetched
           else throw "BRAVE_API_KEY environment variable is not set") rc with
    | (rc', Ok results) => (rc', {| content_text := results; isError := false |})
    | (rc', Throw e) => (rc', {| content_text := "Error: " +:+ e; isError := true |})
    end.
End LocalSearch.

Arguments Build_world {_ _}.
Arguments now1 {_ _} _.
Arguments webResponse {_ _} _.
Arguments now2 {_ _} _.
Arguments fallbackResponse {_ _} _.
Arguments poisResponse {_ _} _.
Arguments descriptionsResponse {_ _} _.
Arguments getPoisData {_} ids fetched.
Arguments getDescriptionsData {_} ids fetched.
Arguments performLocalSearch {_ _} formatLocalResults query count w.
Arguments brave_local_search {_ _} formatLocalResults BRAVE_API_KEY query count w.

End Brave.

(** ** More of JavaScript's strings *)

Definition slash : ascii := "/"%char.
Definition dot : ascii := "."%char.

Definition result_bind {A B} (r : result A) (k : A -> result B) : result B :=
  match r with
  | Ok a => k a
  | Throw e => Throw e
  end.
Notation "'let?' x ':=' r 'in' k" := (result_bind r (fun x => k))
  (at level 10, x pattern, r at level 100, k at level 200) : js_scope.

(** [for (const x of l) { ... }] over a body that may throw. *)
Fixpoint mapM {A B} (f : A -> result B) (l : list A) : result (list B) :=
  match l with
  | [] => Ok []
  | x :: l' => let? y := f x in let? ys := mapM f l' in Ok (y :: ys)
  end.

Fixpoint dropLeadingSlashes (s : string) : string :=
  match s with
  | String c s' => if Ascii.eqb c slash then dropLeadingSlashes s' else s
  | "" => ""
  end.

Definition dropTrailingSlashes (s : string) : string :=
  String.rev (dropLeadingSlashes (String.rev s)).

(** [s.replace(/^\/+|\/+$/g, '')]: the run of slashes at the start and the
    run at the end are removed. *)
Definition stripSlashes (s : string) : string :=
  dropTrailingSlashes (dropLeadingSlashes s).

(** [s.split(sep)] for a one-character separator. *)
Fixpoint split (sep : ascii) (s : string) : list string :=
  match s with
  | "" => [""]
  | String c s' =>
      if Ascii.eqb c sep then "" :: split sep s'
      else match split sep s' with
           | x :: l => String c x :: l
           | [] => [String c ""]
           end
  end.

(** [toLowerCase] on one code unit of the Latin-1 range: A-Z, and the
    accented capitals U+00C0..U+00DE but the multiplication sign. *)
Definition toLowerCaseChar (c : ascii) : ascii :=
  let n := N_of_ascii c in
  if ((65 <=? n) && (n <=? 90) ||
      (192 <=? n) && (n <=? 222) && negb (n =? 215))%N
  then ascii_of_N (n + 32)
  else c.

Fixpoint toLowerCase (s : string) : string :=
  match s with
  | "" => ""
  | String c s' => String (toLowerCaseChar c) (toLowerCase s')
  end.

(** [s.substring(0, n)]. *)
Fixpoint substringTo (n : nat) (s : string) : string :=
  match n, s with
  | S n', String c s' => String c (substringTo n' s')
  | _, _ => ""
  end.

(** [s.slice(s.lastIndexOf(c))] when [c] occurs in [s]. *)
Fixpoint sliceFromLast (c : ascii) (s : string) : option string :=
  match s with
  | "" => None
  | String a s' =>
      match sliceFromLast c s' with
      | Some t => Some t
      | None => if Ascii.eqb a c then Some s else None
      end
  end.

(** White space of [String.prototype.trim] in the Latin-1 range. *)
Definition isWhiteSpace (c : ascii) : bool :=
  let n := N_of_ascii c in
  ((9 <=? n) && (n <=? 13) || (n =? 32) || (n =? 160))%N.

(** [s.trim() !== '']. *)
Fixpoint trimNonEmpty (s : string) : bool :=
  match s with
  | "" => false
  | String c s' => negb (isWhiteSpace c) || trimNonEmpty s'
  end.

(** Number of bytes of the UTF-8 encoding: one for a code unit below 128,
    two for the others of the Latin-1 range. *)
Fixpoint utf8Length (s : string) : Z :=
  match s with
  | "" => 0
  | String c s' => (if (N_of_ascii c <? 128)%N then 1 else 2) + utf8Length s'
  end.

(** [x.toFixed(1)] for [x = num / den] with [den] a power of two, so that
    the quotient is an exact double: the closest tenth, the larger on a
    tie. *)
Definition toFixed1 (num den : Z) : string :=
  let n := (20 * num + den) / (2 * den) in
  Number_toString (n / 10) +:+ "." +:+ Number_toString (n mod 10).

(** ** Node's [path] module, POSIX flavour

    [normalizeString] walks the characters of the path; its effect on the
    [/]-separated segments is the fold below: empty and [.] segments are
    dropped, [..] removes the segment before it unless there is none or it
    is itself [..], in which case it is kept only when the path is
    relative. *)

Module path.

Definition isDotDot (seg : string) : bool := String.eqb seg "..".
Definition isSkipped (seg : string) : bool :=
  String.eqb seg "" || String.eqb seg ".".

(** [res] is the stack of kept segments, the last one first. *)
Fixpoint normalizeSegments (allowAboveRoot : bool) (res segs : list string)
    : list string :=
  match segs with
  | [] => rev res
  | seg :: segs' =>
      if isSkipped seg then normalizeSegments allowAboveRoot res segs'
      else if isDotDot seg then
        match res with
        | last :: res' =>
            if isDotDot last
            then normalizeSegments allowAboveRoot
                   (if allowAboveRoot then seg :: res else res) segs'
            else normalizeSegments allowAboveRoot res' segs'
        | [] =>
            normalizeSegments allowAboveRoot
              (if allowAboveRoot then [seg] else []) segs'
        end
      else normalizeSegments allowAboveRoot (seg :: res) segs'
  end.

Definition normalizeString (p : string) (allowAboveRoot : bool) : string :=
  Array_join "/" (normalizeSegments allowAboveRoot [] (split slash p)).

Definition isAbsolute (p : string) : bool := startsWith p "/".
Definition endsWithSlash (p : string) : bool := startsWith (String.rev p) "/".

(** [path.normalize]. *)
Definition normalize (p : string) : string :=
  if String.eqb p "" then "."
  else
    let q := normalizeString p (negb (isAbsolute p)) in
    if String.eqb q "" then
      if isAbsolute p then "/"
      else if endsWithSlash p then "./" else "."
    else
      (if isAbsolute p then "/" else "") +:+ q +:+
      (if endsWithSlash p then "/" else "").

(** [path.join(...args)]. *)
Definition join (args : list string) : string :=
  match filter (fun a => a ≠ "") args with
  | [] => "."
  | parts => normalize (Array_join "/" parts)
  end.

(** [path.resolve(p)] as the list of its segments; [cwd] is
    [process.cwd()], an absolute path. *)
Definition resolveSegments (cwd p : string) : list string :=
  normalizeSegments false []
    (split slash (if isAbsolute p then p else cwd +:+ "/" +:+ p)).

Definition resolve (cwd p : string) : string :=
  "/" +:+ Array_join "/" (resolveSegments cwd p).

Fixpoint dropCommon (a b : list string) : list string * list string :=
  match a, b with
  | x :: a', y :: b' => if String.eqb x y then dropCommon a' b' else (a, b)
  | _, _ => (a, b)
  end.

(** [path.relative(from, to)]: one [..] for each segment of [from] below
    the common ancestor, then the segments of [to] below it. *)
Definition relative (cwd from to : string) : string :=
  if String.eqb from to then ""
  else
    let '(up, down) := dropCommon (resolveSegments cwd from) (resolveSegments cwd to) in
    Array_join "/" (map (fun _ => "..") up ++ down).

(** [path.basename(p)]: the last non-empty segment. *)
Definition basename (p : string) : string :=
  default "" (last (filter (fun seg => seg ≠ "") (split slash p))).

(** [path.extname(p)]: from the last dot of the base name, unless that dot
    opens the base name or the base name is [..]. *)
Definition extname (p : string) : string :=
  let b := basename p in
  match sliceFromLast dot b with
  | None => ""
  | Some ext =>
      if String.eqb ext b || String.eqb b ".." then "" else ext
  end.

(** [path.dirname(p)]: trailing slashes and the last segment are dropped,
    with the slash before them; the first character is never dropped. *)
Fixpoint dropSegment (s : string) : string :=
  match s with
  | String c s' => if Ascii.eqb c slash then s else dropSegment s'
  | "" => ""
  end.

Definition dirname (p : string) : string :=
  match p with
  | "" => "."
  | String c0 tail =>
      let hasRoot := Ascii.eqb c0 slash in
      match dropSegment (dropLeadingSlashes (String.rev tail)) with
      | "" => if hasRoot then "/" else "."
      | String _ before =>
          if hasRoot && String.eqb before "" then "//"
          else String c0 (String.rev before)
      end
  end.

End path.

(** ** The Obsidian vault adapter ([src/obsidianMcpServer.ts]) *)

Module Obsidian.

(** *** The file system

    What [fs/promises] acts on: a tree of directories, regular files and
    other entries (a socket, say), keyed by the segments of the absolute
    path. A regular file has its text, its modification time and its
    birth time, in milliseconds. *)

Inductive node : Type :=
| File (data : string) (mtime birthtime : Z)
| Dir
| Special (mtime : Z).

Definition isFile (n : node) : bool :=
  match n with File _ _ _ => true | _ => false end.
Definition isDir (n : node) : bool :=
  match n with Dir => true | _ => false end.

(** The fields of [fs.Stats] the code reads; it reads none of them from a
    directory but [isFile()]. *)
Definition statSize (n : node) : Z :=
  match n with File data _ _ => utf8Length data | _ => 0 end.
Definition statMtime (n : node) : Z :=
  match n with File _ m _ => m | Special m => m | Dir => 0 end.
Definition statBirthtime (n : node) : Z :=
  match n with File _ _ b => b | Special m => m | Dir => 0 end.

Record FileInfo := {
  name : string;
  path : string;
  isDirectory : bool;
  size : Z;
  modified : string;
}.

Record FileListResult := {
  files : list FileInfo;
  currentPath : string;
}.

(** What [readObsidianFile] returns. *)
Record FileData := {
  content : string;
  fileInfo : FileInfo;
}.

(** [resourceCache] holds listings and read results under one key space. *)
Inductive cached : Type :=
| CachedList (r : FileListResult)
| CachedFile (r : FileData).

Record State := {
  vault : gmap (list string) node;
  resourceCache : gmap string cached;
}.

Definition set_vault (fs : gmap (list string) node) (st : State) : State :=
  {| vault := fs; resourceCache := resourceCache st |}.
Definition set_cache (c : gmap string cached) (st : State) : State :=
  {| vault := vault st; resourceCache := c |}.

(** A computation that leaves [resourceCache] as it found it. *)
Definition keeps_cache {A : Type} (m : M State A) : Prop :=
  forall st, resourceCache (fst (m st)) = resourceCache st.

(** A variable of a resource template: a string, an array of strings, or
    absent. *)
Inductive templateVar : Type :=
| Str (s : string)
| Arr (l : list string)
| Undefined.

Record lineMatch := {
  line : Z;
  text : string;
}.

(** One entry of [searchResults]. *)
Record searchResult := {
  result_fileInfo : FileInfo;
  result_content : string;
  result_matches : list lineMatch;
}.

Definition errno (code desc syscall p : string) : string :=
  code +:+ ": " +:+ desc +:+ ", " +:+ syscall +:+ " '" +:+ p +:+ "'".
Definition ENOENT := errno "ENOENT" "no such file or directory".
Definition ENOTDIR := errno "ENOTDIR" "not a directory".
Definition EISDIR := errno "EISDIR" "illegal operation on a directory".
Definition EEXIST := errno "EEXIST" "file already exists".
Definition ENXIO := errno "ENXIO" "no such device or address".

Definition undefinedProperty (prop : string) : string :=
  "Cannot read properties of undefined (reading '" +:+ prop +:+ "')".

(** [formatFileSize]; the quotients are exact, see [toFixed1]. *)
Definition formatFileSize (bytes : Z) : string :=
  if bytes <? 1024 then Number_toString bytes +:+ " B"
  else if bytes <? 1024 * 1024 then toFixed1 bytes 1024 +:+ " KB"
  else if bytes <? 1024 * 1024 * 1024 then toFixed1 bytes (1024 * 1024) +:+ " MB"
  else toFixed1 bytes (1024 * 1024 * 1024) +:+ " GB".

(** [k] names an entry of the directory [dir]: its name. *)
Fixpoint childName (dir k : list string) : option string :=
  match dir, k with
  | [], [nm] => Some nm
  | d :: dir', x :: k' => if String.eqb d x then childName dir' k' else None
  | _, _ => None
  end.

Section Server.

(** [process.env.OBSIDIAN_VAULT_PATH || ''] and [process.cwd()]. *)
Variable OBSIDIAN_VAULT_PATH : string.
Variable cwd : string.
(** [Date.prototype.toISOString], [new Date(string)] and
    [Date.prototype.toLocaleString] on millisecond time stamps. *)
Variable toISOString : Z -> string.
Variable Date_parse : string -> Z.
Variable toLocaleString : Z -> string.

Definition key (p : string) : list string := path.resolveSegments cwd p.

(** The entry a system call finds at [p]. *)
Definition lookupNode (fs : gmap (list string) node) (syscall p : string)
    : result node :=
  match key p with
  | [] => Ok Dir
  | k =>
      match fs !! k with
      | None => Throw (ENOENT syscall p)
      | Some Dir => Ok Dir
      | Some n => if path.endsWithSlash p then Throw (ENOTDIR syscall p) else Ok n
      end
  end.

Definition fs_stat (fs : gmap (list string) node) (p : string) : result node :=
  lookupNode fs "stat" p.

Definition fs_access (fs : gmap (list string) node) (p : string) : result unit :=
  let? _ := lookupNode fs "access" p in Ok tt.

Definition fs_readFile (fs : gmap (list string) node) (p : string) : result string :=
  let? n := lookupNode fs "open" p in
  match n with
  | File data _ _ => Ok data
  | Dir => Throw "EISDIR: illegal operation on a directory, read"
  | Special _ => Throw (ENXIO "open" p)
  end.

(** [fs.readdir(p, { withFileTypes: true })]: the entries of the directory,
    in the order the map enumerates them. *)
Definition fs_readdir (fs : gmap (list string) node) (p : string)
    : result (list (string * node)) :=
  let? n := lookupNode fs "scandir" p in
  match n with
  | Dir => Ok (omap (fun '(k, n) => nm ← childName (key p) k; Some (nm, n))
                 (map_to_list fs))
  | _ => Throw (ENOTDIR "scandir" p)
  end.

(** [fs.writeFile(p, data, 'utf-8')] at time [now]. *)
Definition fs_writeFile (p data : string) (now : Z)
    : M (gmap (list string) node) unit :=
  fun fs =>
    match key p with
    | [] => (fs, Throw (EISDIR "open" p))
    | k =>
        match fs !! k with
        | Some (File _ _ b) =>
            if path.endsWithSlash p then (fs, Throw (ENOTDIR "open" p))
            else (<[k := File data now b]> fs, Ok tt)
        | Some Dir => (fs, Throw (EISDIR "open" p))
        | Some (Special _) => (fs, Throw (ENXIO "open" p))
        | None =>
            let parent := removelast k in
            match (if decide (parent = []) then Some Dir else fs !! parent) with
            | Some Dir =>
                if path.endsWithSlash p then (fs, Throw (EISDIR "open" p))
                else (<[k := File data now now]> fs, Ok tt)
            | Some _ => (fs, Throw (ENOTDIR "open" p))
            | None => (fs, Throw (ENOENT "open" p))
            end
        end
    end.

(** [fs.mkdir(p, { recursive: true })]: the missing directories along the
    path are made, from the top, until an entry that is no directory is in
    the way. *)
Fixpoint mkdirFrom (p : string) (above todo : list string)
    : M (gmap (list string) node) unit :=
  fun fs =>
    match todo with
    | [] => (fs, Ok tt)
    | seg :: todo' =>
        let k := (above ++ [seg])%list in
        match fs !! k with
        | None => mkdirFrom p k todo' (<[k := Dir]> fs)
        | Some Dir => mkdirFrom p k todo' fs
        | Some _ =>
            (fs, Throw (if decide (todo' = []) then EEXIST "mkdir" p
                        else ENOTDIR "mkdir" p))
        end
    end.

Definition fs_mkdir_recursive (p : string) : M (gmap (list string) node) unit :=
  mkdirFrom p [] (key p).

(** A read-only call and a mutating call of [fs], on the server state. *)
Definition reading {A} (f : gmap (list string) node -> result A) : M State A :=
  fun st => (st, f (vault st)).
Definition writing {A} (f : M (gmap (list string) node) A) : M State A :=
  fun st => let '(fs, r) := f (vault st) in (set_vault fs st, r).

(** *** The vault guard and the listing *)

Definition indent : string := "                       ".

Definition Boolean_toString (b : bool) : string :=
  if b then "true" else "false".

(** The message of the error [getObsidianFiles] throws. *)
Definition accessDeniedDetails (dirPathStr normalizedDirPath fullPath : string)
    : string :=
  "Access denied details:" +:+ nl +:+
  indent +:+ "- OBSIDIAN_VAULT_PATH: " +:+ OBSIDIAN_VAULT_PATH +:+ nl +:+
  indent +:+ "- dirPathStr: " +:+ dirPathStr +:+ nl +:+
  indent +:+ "- normalizedDirPath: " +:+ normalizedDirPath +:+ nl +:+
  indent +:+ "- fullPath: " +:+ fullPath +:+ nl +:+
  indent +:+ "- process.cwd(): " +:+ cwd +:+ nl +:+
  indent +:+ "- fullPath.startsWith check: " +:+
    Boolean_toString (startsWith fullPath OBSIDIAN_VAULT_PATH) +:+ nl +:+
  indent +:+ "Path does not start with allowed directory".

(** [Array.isArray(v) ? v[0] : v || '']; [None] is [undefined]. *)
Definition firstOrSelf (v : templateVar) : option string :=
  match v with
  | Str s => Some s
  | Arr l => head l
  | Undefined => Some ""
  end.

(** The first lines of [getObsidianFiles]: the path it goes on to list. *)
Definition resolveDir (dirPath : templateVar) : result (string * string) :=
  match firstOrSelf dirPath with
  | None => Throw (undefinedProperty "replace")
  | Some dirPathStr =>
      let normalizedDirPath :=
        if String.eqb dirPathStr "/" then "" else stripSlashes dirPathStr in
      let fullPath := path.join [OBSIDIAN_VAULT_PATH; normalizedDirPath] in
      if negb (startsWith fullPath OBSIDIAN_VAULT_PATH)
      then Throw (accessDeniedDetails dirPathStr normalizedDirPath fullPath)
      else Ok (normalizedDirPath, fullPath)
  end.

(** [getObsidianFiles]; [now] is the [new Date()] a directory entry
    gets. *)
Definition getObsidianFiles (now : Z) (dirPath : templateVar)
    (fs : gmap (list string) node) : result FileListResult :=
  let? (normalizedDirPath, fullPath) := resolveDir dirPath in
  let? entries := fs_readdir fs fullPath in
  let? fileInfos :=
    mapM (fun '(dirent_name, dirent) =>
            let filePath := path.join [fullPath; dirent_name] in
            let isDir := isDir dirent in
            let? (fileSize, modTime) :=
              if negb isDir
              then let? fileStats := fs_stat fs filePath in
                   Ok (statSize fileStats, statMtime fileStats)
              else Ok (0, now) in
            Ok {| name := dirent_name;
                  path := path.relative cwd OBSIDIAN_VAULT_PATH filePath;
                  isDirectory := isDir;
                  size := fileSize;
                  modified := toISOString modTime |})
         entries in
  Ok {| files := fileInfos; currentPath := normalizedDirPath |}.

(** The first lines of [readObsidianFile], of [obsidian-create] and of
    [obsidian-update]: the path they go on to use. *)
Definition resolveFile (filePath : string) : result (string * string) :=
  let normalizedPath := stripSlashes filePath in
  let fullPath := path.join [OBSIDIAN_VAULT_PATH; normalizedPath] in
  if negb (startsWith fullPath OBSIDIAN_VAULT_PATH)
  then Throw "Access denied: Path outside of allowed directory"
  else Ok (normalizedPath, fullPath).

(** [readObsidianFile]. *)
Definition readObsidianFile (filePath : string) (fs : gmap (list string) node)
    : result FileData :=
  let? (normalizedPath, fullPath) := resolveFile filePath in
  let? fileStats := fs_stat fs fullPath in
  if negb (isFile fileStats)
  then Throw "Not a file: Directory cannot be read as a file"
  else
    let fileInfo :=
      {| name := path.basename fullPath;
         path := normalizedPath;
         isDirectory := false;
         size := statSize fileStats;
         modified := toISOString (statMtime fileStats) |} in
    let? content := fs_readFile fs fullPath in
    Ok {| content := content; fileInfo := fileInfo |}.

(** *** The handlers

    A resource handler returns its payload (the text block it sends is
    [JSON.stringify] of it) or throws; a tool handler always returns the
    text of its one content block. *)

(** [error instanceof Error ? error.message : 'Unknown error']: whatever is
    thrown here is an [Error]. *)
Definition messageOf (e : string) : string := e.

(** [`${err}`] for an [Error] with a message. *)
Definition Error_toString (e : string) : string := "Error: " +:+ e.

(** The [obsidian-list] resource. *)
Definition obsidian_list (uri_href : string) (dirPath : templateVar) (now : Z)
    : M State FileListResult :=
  fun st =>
    match getObsidianFiles now dirPath (vault st) with
    | Ok result =>
        (set_cache (<[uri_href := CachedList result]> (resourceCache st)) st,
         Ok result)
    | Throw e => (st, Throw ("Failed to list files: " +:+ messageOf e))
    end.

Definition fileLine (file : FileInfo) : string :=
  let typeIndicator := if isDirectory file then "[DIR]" else "[FILE]" in
  let size := if isDirectory file then ""
              else "(" +:+ formatFileSize (size file) +:+ ")" in
  typeIndicator +:+ " " +:+ name file +:+ " " +:+ size +:+ nl.

(** [x || 'root']. *)
Definition orRoot (s : string) : string :=
  if String.eqb s "" then "root" else s.

(** The [obsidian-search] tool; an absent [path] or [query] is [''].
    [name.indexOf(query) !== -1] is [includes]. *)
Definition obsidian_search (path query : option string) (now : Z)
    : State -> State * string :=
  fun st =>
    let path := default "" path in
    let query := default "" query in
    match getObsidianFiles now (Str path) (vault st) with
    | Ok result =>
        let files :=
          if negb (String.eqb query "") && trimNonEmpty query
          then filter (fun file => includes (name file) query = true) (files result)
          else files result in
        let responseText :=
          "Files in " +:+ orRoot (currentPath result) +:+ " directory:" +:+ nl +:+ nl in
        (st,
         if decide (files = []) then responseText +:+ "No files found."
         else fold_left (fun acc file => acc +:+ fileLine file) files responseText)
    | Throw e => (st, "Error searching files: " +:+ messageOf e)
    end.

(** The [obsidian-read] resource. *)
Definition obsidian_read (uri_href : string) (filePath : templateVar)
    : M State FileData :=
  fun st =>
    match
      (match firstOrSelf filePath with
       | Some filePathStr => readObsidianFile filePathStr (vault st)
       | None => Throw (undefinedProperty "replace")
       end)
    with
    | Ok response =>
        (set_cache (<[uri_href := CachedFile response]> (resourceCache st)) st,
         Ok response)
    | Throw e => (st, Throw ("Failed to read file: " +:+ messageOf e))
    end.

(** The text [obsidian-view] builds from a read result. *)
Definition viewText (fileData : FileData) : string :=
  let extension := toLowerCase (path.extname (name (fileInfo fileData))) in
  let isMarkdown := String.eqb extension ".md" in
  "File: " +:+ name (fileInfo fileData) +:+ nl +:+
  "Size: " +:+ formatFileSize (size (fileInfo fileData)) +:+ nl +:+
  "Last Modified: " +:+
    toLocaleString (Date_parse (modified (fileInfo fileData))) +:+ nl +:+ nl +:+
  (if isMarkdown then "Markdown Content" else "Content") +:+ ":" +:+ nl +:+ nl +:+
  content fileData.

(** The [obsidian-view] tool. An entry of the cache is an object, hence
    truthy; one that is a listing has no [fileInfo]. *)
Definition obsidian_view (filePath : string) : State -> State * string :=
  fun st =>
    let resourceUri := "obsidian://" +:+ filePath +:+ "/read" in
    match resourceCache st !! resourceUri with
    | Some (CachedFile fileData) => (st, viewText fileData)
    | Some (CachedList _) =>
        (st, "Error viewing file: " +:+ messageOf (undefinedProperty "name"))
    | None =>
        match readObsidianFile filePath (vault st) with
        | Ok fileData =>
            (set_cache (<[resourceUri := CachedFile fileData]> (resourceCache st)) st,
             viewText fileData)
        | Throw err => (st, "Error reading file: " +:+ messageOf err)
        end
    end.

Definition searchableExtensions : list string :=
  [".md"; ".txt"; ".csv"; ".json"; ".yaml"; ".yml"].

(** The predicate of [filesToSearch]. *)
Definition searchable (file : FileInfo) : bool :=
  if isDirectory file then false
  else
    let ext := match sliceFromLast dot (name file) with
               | Some e => toLowerCase e
               | None => ""
               end in
    bool_decide (ext ∈ searchableExtensions).

(** The matching lines of a file, numbered from 1: the [map], [filter],
    [map] chain on [lines]. *)
Definition matchingLines (content lowerQuery : string) : list lineMatch :=
  let lines := split (ascii_of_nat 10) content in
  let marked :=
    imap (fun index line =>
            (Z.of_nat index + 1, line, includes (toLowerCase line) lowerQuery))
         lines in
  map (fun '(line, text, _) => {| line := line; text := text |})
      (filter (fun '(_, _, matches) => matches = true) marked).

(** The matching lines, by recursion on the lines; [i] lines precede. *)
Fixpoint matchesFrom (i : nat) (lowerQuery : string) (lines : list string)
    : list lineMatch :=
  match lines with
  | [] => []
  | l :: ls =>
      if includes (toLowerCase l) lowerQuery
      then {| line := Z.of_nat i + 1; text := l |} :: matchesFrom (S i) lowerQuery ls
      else matchesFrom (S i) lowerQuery ls
  end.

(** [content.length > 200 ? `${content.substring(0, 200)}...` : content] *)
Definition preview (content : string) : string :=
  if (200 <? String.length content)%nat
  then substringTo 200 content +:+ "..."
  else content.

(** The body of the [try] in the loop of [obsidian-content-search]:
    what is pushed on [searchResults], if anything. *)
Definition searchFile (query : string) (file : FileInfo)
    (fs : gmap (list string) node) : result (option searchResult) :=
  let? fileData := readObsidianFile (path file) fs in
  let lowerContent := toLowerCase (content fileData) in
  let lowerQuery := toLowerCase query in
  if includes lowerContent lowerQuery then
    let matches := matchingLines (content fileData) lowerQuery in
    let limitedMatches := firstn 5 matches in
    Ok (Some {| result_fileInfo := fileInfo fileData;
                result_content := preview (content fileData);
                result_matches := limitedMatches |})
  else Ok None.

(** The loop over [filesToSearch]: [searchResults] grows at its end, and
    [logged] collects the lines the [catch] writes with [console.error]. *)
Fixpoint searchLoop (query : string) (fs : gmap (list string) node)
    (filesToSearch : list FileInfo)
    (searchResults : list searchResult) (logged : list string)
    : list searchResult * list string :=
  match filesToSearch with
  | [] => (searchResults, logged)
  | file :: rest =>
      match searchFile query file fs with
      | Ok (Some r) => searchLoop query fs rest (searchResults ++ [r]) logged
      | Ok None => searchLoop query fs rest searchResults logged
      | Throw err =>
          searchLoop query fs rest searchResults
            (logged ++ ["Error searching file " +:+ path file +:+ ": " +:+
                        Error_toString err])
      end
  end.

Definition matchLine (m : lineMatch) : string :=
  let displayText :=
    if (100 <? String.length (text m))%nat
    then substringTo 100 (text m) +:+ "..."
    else text m in
  "  Line " +:+ Number_toString (line m) +:+ ": " +:+ displayText +:+ nl.

(** What one entry of [searchResults] adds to the report. *)
Definition resultBlock (r : searchResult) : string :=
  name (result_fileInfo r) +:+ " (" +:+
    formatFileSize (size (result_fileInfo r)) +:+ ")" +:+ nl +:+
  (if decide (result_matches r = []) then ""
   else fold_left (fun acc m => acc +:+ matchLine m) (result_matches r)
          ("Matching lines:" +:+ nl)) +:+
  nl.

(** The report of [obsidian-content-search]. *)
Definition searchReport (query currentPath : string)
    (searchResults : list searchResult) : string :=
  let responseText :=
    "Search results for " +:+ dquote +:+ query +:+ dquote +:+ " in " +:+
    orRoot currentPath +:+ ":" +:+ nl +:+ nl in
  if decide (searchResults = [])
  then responseText +:+ "No matches found in any files."
  else
    fold_left (fun acc r => acc +:+ resultBlock r) searchResults responseText +:+
    "Found " +:+ Number_toString (Z.of_nat (length searchResults)) +:+
    " files containing " +:+ dquote +:+ query +:+ dquote +:+ "." +:+ nl.

(** The [obsidian-content-search] tool; an absent [path] is ['']. *)
Definition obsidian_content_search (query : string) (searchPath : option string)
    (now : Z) : State -> State * string :=
  fun st =>
    match getObsidianFiles now (Str (default "" searchPath)) (vault st) with
    | Ok fileListResult =>
        let filesToSearch := filter (fun file => searchable file = true)
                               (files fileListResult) in
        let searchResults :=
          fst (searchLoop query (vault st) filesToSearch [] []) in
        (st, searchReport query (currentPath fileListResult) searchResults)
    | Throw e => (st, "Error searching file contents: " +:+ messageOf e)
    end.

Definition alreadyExists (normalizedPath : string) : string :=
  "File already exists: " +:+ normalizedPath +:+
  ". Use overwrite=true to replace it.".

Definition createdText (normalizedPath : string) (fileStats : node) : string :=
  "File created successfully: " +:+ normalizedPath +:+ nl +:+
  "Size: " +:+ formatFileSize (statSize fileStats) +:+ nl +:+
  "Created: " +:+ toLocaleString (statBirthtime fileStats).

(** The [obsidian-create] tool, at time [now]. The two inner [try]
    blocks swallow what [fs.access] and [fs.mkdir] throw. *)
Definition obsidian_create (filePath content : string) (overwrite : bool)
    (now : Z) : State -> State * string :=
  fun st =>
    match
      (let! (normalizedPath, fullPath) := lift (resolveFile filePath) in
       let! exists_ :=
         try_catch (do! reading (fun fs => fs_access fs fullPath) in ret true)
                   (fun _ => ret false) in
       if exists_ && negb overwrite then ret (alreadyExists normalizedPath)
       else
         let dirPath := path.dirname fullPath in
         do! try_catch (writing (fs_mkdir_recursive dirPath)) (fun _ => ret tt) in
         do! writing (fs_writeFile fullPath content now) in
         let! fileStats := reading (fun fs => fs_stat fs fullPath) in
         ret (createdText normalizedPath fileStats)) st
    with
    | (st', Ok responseText) => (st', responseText)
    | (st', Throw e) => (st', "Error creating file: " +:+ messageOf e)
    end.

Definition updatedText (normalizedPath : string) (fileStats : node)
    (append : bool) : string :=
  "File updated successfully: " +:+ normalizedPath +:+ nl +:+
  "Size: " +:+ formatFileSize (statSize fileStats) +:+ nl +:+
  "Modified: " +:+ toLocaleString (statMtime fileStats) +:+ nl +:+
  "Operation: " +:+ (if append then "Appended" else "Replaced").

(** The [obsidian-update] tool, at time [now]. *)
Definition obsidian_update (filePath content : string) (append : bool)
    (now : Z) : State -> State * string :=
  fun st =>
    match
      (let! (normalizedPath, fullPath) := lift (resolveFile filePath) in
       do! try_catch
             (let! fileStats := reading (fun fs => fs_stat fs fullPath) in
              if negb (isFile fileStats) then throw "Path is not a file"
              else ret tt)
             (fun _ => throw ("File not found: " +:+ normalizedPath)) in
       let! finalContent :=
         if append
         then let! existingContent := reading (fun fs => fs_readFile fs fullPath) in
              ret (existingContent +:+ nl +:+ content)
         else ret content in
       do! writing (fs_writeFile fullPath finalContent now) in
       let! fileStats := reading (fun fs => fs_stat fs fullPath) in
       ret (updatedText normalizedPath fileStats append)) st
    with
    | (st', Ok responseText) => (st', responseText)
    | (st', Throw e) => (st', "Error updating file: " +:+ messageOf e)
    end.

(** What the loop leaves in [searchResults]: the results of the files
    that are read and match, in the order of the files. *)
Definition pushed (query : string) (fs : gmap (list string) node)
    (file : FileInfo) : option searchResult :=
  match searchFile query file fs with
  | Ok (Some r) => Some r
  | _ => None
  end.

(** What the loop writes to the error stream: one line for each file
    whose read throws. *)
Definition complaint (query : string) (fs : gmap (list string) node)
    (file : FileInfo) : option string :=
  match searchFile query file fs with
  | Throw err =>
      Some ("Error searching file " +:+ path file +:+ ": " +:+ Error_toString err)
  | _ => None
  end.

(** *** Requests

    The host calls the handlers one request at a time; [handle] is the
    state a request leaves. *)

Inductive request : Type :=
| ListResource (uri_href : string) (dirPath : templateVar) (now : Z)
| ReadResource (uri_href : string) (filePath : templateVar)
| Search (path query : option string) (now : Z)
| View (filePath : string)
| ContentSearch (query : string) (searchPath : option string) (now : Z)
| Create (filePath content : string) (overwrite : bool) (now : Z)
| Update (filePath content : string) (append : bool) (now : Z).

Definition handle (st : State) (req : request) : State :=
  match req with
  | ListResource uri_href dirPath now => fst (obsidian_list uri_href dirPath now st)
  | ReadResource uri_href filePath => fst (obsidian_read uri_href filePath st)
  | Search path query now => fst (obsidian_search path query now st)
  | View filePath => fst (obsidian_view filePath st)
  | ContentSearch query searchPath now =>
      fst (obsidian_content_search query searchPath now st)
  | Create filePath content overwrite now =>
      fst (obsidian_create filePath content overwrite now st)
  | Update filePath content append now =>
      fst (obsidian_update filePath content append now st)
  end.

(** The URI a resource request is made with, if it is one. *)
Definition fetchedUri (req : request) : option string :=
  match req with
  | ListResource uri_href _ _ => Some uri_href
  | ReadResource uri_href _ => Some uri_href
  | _ => None
  end.

(** *** Containment

    [p] names the directory [root] or an entry below it: the segments of
    [root] open the segments of [p]. This is what the guard is for; the
    code tests [startsWith] on the strings instead. *)
Definition liesInside (root p : string) : bool :=
  bool_decide (key root `prefix_of` key p).

(** The candidate has a [..] segment. *)
Definition hasDotDot (candidate : string) : bool :=
  bool_decide (".." ∈ split slash candidate).

End Server.

End Obsidian.

(** * Example data *)

Module BraveExamples.
Import Brave.

Definition web_with_place : response BraveWeb :=
  {| ok := true; status := 200; statusText := "OK"; text := "";
     json := Ok {| web_results := None;
                   locations_results := Some [ {| id := Some "p1" |} ] |} |}.

Definition all_ok : world unit unit :=
  {| now1 := 5000; webResponse := Ok web_with_place;
     now2 := 7000; fallbackResponse := Ok web_with_place;
     poisResponse :=
       Ok {| ok := true; status := 200; statusText := "OK"; text := "";
             json := Ok tt |};
     descriptionsResponse :=
       Ok {| ok := true; status := 200; statusText := "OK"; text := "";
             json := Ok tt |} |}.

End BraveExamples.

Module VaultExamples.
Import Obsidian.

Definition sibling_vault : gmap (list string) node :=
  list_to_map
    [ (["a"], Dir); (["a"; "b"], Dir); (["a"; "b"; "note.md"], File "mine" 1 1);
      (["a"; "bc"], Dir); (["a"; "bc"; "x.md"], File "secret" 2 2) ].

(** A vault with one note, [/vault/a.md], that reads "hello". *)
Definition hello_vault : State :=
  {| vault := list_to_map [ (["vault"], Dir);
                            (["vault"; "a.md"], File "hello" 1 1) ];
     resourceCache := ∅ |}.

Definition note (nm : string) (bytes : Z) : FileInfo :=
  {| name := nm; path := nm; isDirectory := false; size := bytes;
     modified := "t" |}.

(** Ten lines that all contain "todo" in some case. *)
Definition ten_lines : string :=
  Array_join nl [ "TODO one"; "todo two"; "Todo three"; "toDo four";
                  "a todo five"; "TODO six"; "todo seven"; "todo eight";
                  "todo nine"; "todo ten" ].

(** 201 characters. *)
Definition long_text : string :=
  String.concat "" (repeat "a" 201).

(** A vault with three notes and a socket. *)
Definition search_vault : gmap (list string) node :=
  list_to_map [ (["vault"], Dir);
                (["vault"; "ten.md"], File ten_lines 1 1);
                (["vault"; "sock.md"], Special 2);
                (["vault"; "long.md"], File long_text 3 3);
                (["vault"; "plan.txt"], File "my todo list" 4 4) ].

End VaultExamples.

(** * Runs of calls *)

Module BraveRuns.
Import Brave.

(** The counters after [checkRateLimit] has been called once for each
    clock reading of [nows], in order, whatever the outcomes. *)
Definition runChecks (nows : list Z) (rc : requestCount) : requestCount :=
  foldl (fun rc now => fst (checkRateLimit now rc)) rc nows.

(** [m] takes at most [n] units of the monthly budget, gives none back,
    and does not push the monthly count past the budget. *)
Definition within (n : Z) {A : Type} (m : M requestCount A) : Prop :=
  forall rc,
    month rc <= month (fst (m rc)) <= month rc + n /\
    (month rc <= RATE_LIMIT_perMonth -> month (fst (m rc)) <= RATE_LIMIT_perMonth).

(** What both handlers answer when [BRAVE_API_KEY] is not set. *)
Definition keyMissing : toolResult :=
  {| content_text := "Error: BRAVE_API_KEY environment variable is not set";
     isError := true |}.

(** What both handlers answer when the monthly budget is used up. *)
Definition budgetExceeded : toolResult :=
  {| content_text := "Error: Monthly rate limit exceeded"; isError := true |}.

(** An answer with one web result and no place, and a world that gives
    it to both searches. *)
Definition no_place : response BraveWeb :=
  {| ok := true; status := 200; statusText := "OK"; text := "";
     json := Ok {| web_results := Some [ {| title := Some "Rocq";
                                            description := None;
                                            url := Some "https://rocq-prover.org" |} ];
                   locations_results := None |} |}.

Definition world_without_place : world unit unit :=
  {| now1 := 100; webResponse := Ok no_place;
     now2 := 1300; fallbackResponse := Ok no_place;
     poisResponse := Throw "unused"; descriptionsResponse := Throw "unused" |}.

End BraveRuns.

(** * Paths and vaults in normal form

    The vocabulary of the statements about the guard, the listing and
    the creation of files. *)

Module VaultPaths.
Import path Obsidian.

(** The string has no [/]. *)
Fixpoint noSlash (s : string) : bool :=
  match s with
  | "" => true
  | String c s' => negb (Ascii.eqb c slash) && noSlash s'
  end.

(** A segment [path.normalize] keeps as it is. *)
Definition kept (seg : string) : bool := negb (isSkipped seg) && negb (isDotDot seg).

(** A name a directory can hold: not empty, no [/], neither [.] nor
    [..]. *)
Definition properSegment (seg : string) : bool :=
  noSlash seg && negb (isSkipped seg) && negb (isDotDot seg).

(** The normalized absolute path of its segments: [/a/b] for [a], [b]. *)
Definition absolutePath (segs : list string) : string :=
  "/" +:+ Array_join "/" segs.

(** [k] slashes. *)
Fixpoint slashes (k : nat) : string :=
  match k with
  | O => ""
  | S k' => String slash (slashes k')
  end.

(** The segments of a candidate that count: those between its slashes,
    but the empty ones and [.]. *)
Definition segmentsOf (candidate : string) : list string :=
  filter (fun x => isSkipped x = false) (split slash (stripSlashes candidate)).

(** Every entry is keyed by names a directory can hold. *)
Definition wellFormed (fs : gmap (list string) node) : Prop :=
  map_Forall (fun k _ => Forall (fun x => properSegment x = true) k) fs.

(** The entry of a listing for the child [e.1] of the listed directory,
    which lies [below] the root, at time [now]. *)
Definition entryInfo (toISOString : Z -> string) (below : list string) (now : Z)
    (e : string * node) : FileInfo :=
  {| name := e.1;
     path := Array_join "/" (below ++ [e.1]);
     isDirectory := isDir e.2;
     size := statSize e.2;
     modified := toISOString (if isDir e.2 then now else statMtime e.2) |}.

(** The requests that write to the vault. *)
Definition changesVault (req : request) : bool :=
  match req with
  | Create _ _ _ _ | Update _ _ _ _ => true
  | _ => false
  end.

End VaultPaths.

(** * Properties *)

(** ** Sequencing *)

Lemma bind_ok {S A B : Type} (m : M S A) (k : A -> M S B) (s s' : S) (a : A) :
  m s = (s', Ok a) -> bind m k s = k a s'.
Proof. intros H. unfold bind. by rewrite H. Qed.

Lemma bind_throw {S A B : Type} (m : M S A) (k : A -> M S B) (s s' : S)
    (e : string) :
  m s = (s', Throw e) -> bind m k s = (s', Throw e).
Proof. intros H. unfold bind. by rewrite H. Qed.

(** ** The rate budget *)

Module BraveProps.
Import Brave BraveExamples.

Lemma resetWindow_month (now : Z) (rc : requestCount) :
  month (resetWindow now rc) = month rc.
Proof. unfold resetWindow. by destruct (1000 <? now - lastReset rc). Qed.

Lemma checkRateLimit_unfold (now : Z) (rc : requestCount) :
  checkRateLimit now rc =
  let rc0 := resetWindow now rc in
  if RATE_LIMIT_perMonth <=? month rc
  then (rc0, Throw "Monthly rate limit exceeded")
  else ({| second := second rc0 + 1; month := month rc + 1;
           lastReset := lastReset rc0 |}, Ok tt).
Proof.
  unfold checkRateLimit. cbv zeta. rewrite resetWindow_month.
  by destruct (RATE_LIMIT_perMonth <=? month rc).
Qed.

(** C3. [checkRateLimit] throws "Monthly rate limit exceeded" exactly when
    the monthly count has reached 15000; the per-second count has no say
    in the outcome; on the throw the monthly count is unchanged and the
    per-second count is not incremented; when more than 1000 ms have passed
    since the last reset the per-second count restarts from 0 and the reset
    time becomes [now] before the monthly test (so the count is 0 after a
    throw and 1 after an allowed call), and otherwise the window is left
    alone; an allowed call adds one to both counters. *)
Theorem checkRateLimit_budget (now : Z) (rc : requestCount) :
  let out := checkRateLimit now rc in
  let rc' := fst out in
  RATE_LIMIT_perMonth = 15000 /\
  (snd out = Throw "Monthly rate limit exceeded" <-> 15000 <= month rc) /\
  (snd out = Ok tt <-> month rc < 15000) /\
  (forall s : Z, snd (checkRateLimit now (set_second s rc)) = snd out) /\
  (15000 <= month rc ->
     month rc' = month rc /\
     second rc' = second (resetWindow now rc) /\
     (second rc' = second rc \/ second rc' = 0)) /\
  (1000 < now - lastReset rc ->
     resetWindow now rc = {| second := 0; month := month rc; lastReset := now |} /\
     lastReset rc' = now /\
     second rc' = if 15000 <=? month rc then 0 else 1) /\
  (now - lastReset rc <= 1000 ->
     resetWindow now rc = rc /\ lastReset rc' = lastReset rc) /\
  (month rc < 15000 ->
     month rc' = month rc + 1 /\
     second rc' = second (resetWindow now rc) + 1).
Proof.
  cbv zeta. rewrite checkRateLimit_unfold. cbv zeta.
  assert (Hs : forall s, snd (checkRateLimit now (set_second s rc)) =
                         if RATE_LIMIT_perMonth <=? month rc
                         then Throw "Monthly rate limit exceeded" else Ok tt).
  { intros s. rewrite checkRateLimit_unfold. cbv zeta. simpl.
    by destruct (RATE_LIMIT_perMonth <=? month rc). }
  unfold RATE_LIMIT_perMonth in *. unfold resetWindow.
  destruct (Z.leb_spec 15000 (month rc)) as [Hm | Hm];
    destruct (Z.ltb_spec 1000 (now - lastReset rc)) as [Hw | Hw];
    destruct rc as [s m l]; simpl in *;
    repeat split; intros; try done; try lia; auto.
Qed.

(** At month 15000 and a window that has elapsed: the call throws, the
    monthly count stays and the per-second count is back at 0. *)
Lemma checkRateLimit_budget_witness :
  let rc := {| second := 7; month := 15000; lastReset := 0 |} in
  checkRateLimit 5000 rc =
    ({| second := 0; month := 15000; lastReset := 5000 |},
     Throw "Monthly rate limit exceeded") /\
  month (fst (checkRateLimit 5000 rc)) = 15000 /\
  lastReset (fst (checkRateLimit 5000 rc)) = 5000.
Proof.
  cbv zeta.
  pose proof (checkRateLimit_budget 5000
                {| second := 7; month := 15000; lastReset := 0 |}) as H.
  cbv zeta in H.
  destruct H as (_ & _ & _ & _ & Hfail & Hreset & _ & _).
  split; [reflexivity |].
  split.
  - apply Hfail. simpl. lia.
  - apply Hreset. simpl. lia.
Defined.

Section LocalBudget.
Variables BravePoiResponse BraveDescription : Type.
Variable formatLocalResults : BravePoiResponse -> BraveDescription -> string.

Lemma checkRateLimit_allowed (now : Z) (rc : requestCount) :
  month rc < 15000 ->
  checkRateLimit now rc =
  ({| second := second (resetWindow now rc) + 1; month := month rc + 1;
      lastReset := lastReset (resetWindow now rc) |}, Ok tt).
Proof.
  intros H. rewrite checkRateLimit_unfold. cbv zeta. unfold RATE_LIMIT_perMonth.
  destruct (Z.leb_spec 15000 (month rc)); [lia | done].
Qed.

Lemma consumeMonthly_allowed (rc : requestCount) :
  month rc < 15000 ->
  consumeMonthly rc =
  ({| second := second rc; month := month rc + 1; lastReset := lastReset rc |},
   Ok tt).
Proof.
  intros H. unfold consumeMonthly, RATE_LIMIT_perMonth.
  destruct (Z.leb_spec 15000 (month rc)); [lia | done].
Qed.

Lemma readJson_ok {S J : Type} (fetched : result (response J)) (r : response J)
    (j : J) (s : S) :
  fetched = Ok r -> ok r = true -> json r = Ok j ->
  readJson fetched s = (s, Ok j).
Proof.
  intros -> Hok Hj. unfold readJson, bind, lift. by rewrite Hok, Hj.
Qed.

Lemma consumeMonthly_unfold (rc : requestCount) :
  consumeMonthly rc =
  if RATE_LIMIT_perMonth <=? month rc
  then (rc, Throw "Monthly rate limit exceeded")
  else ({| second := second rc; month := month rc + 1;
           lastReset := lastReset rc |}, Ok tt).
Proof. reflexivity. Qed.

Lemma readJson_state {J : Type} (fetched : result (response J))
    (rc : requestCount) :
  fst (readJson fetched rc) = rc.
Proof.
  unfold readJson, bind, lift, throw.
  destruct fetched as [r | e]; [| done].
  destruct (ok r); simpl; done.
Qed.

(** The lookups that follow the first query leave the per-second window
    alone and take at most one unit of the monthly budget. *)
Lemma lookup_window {J : Type} (fetched : result (response J))
    (rc : requestCount) :
  let rc' := fst ((do! consumeMonthly in readJson fetched) rc) in
  second rc' = second rc /\ lastReset rc' = lastReset rc /\
  month rc' = if RATE_LIMIT_perMonth <=? month rc then month rc else month rc + 1.
Proof.
  cbv zeta. unfold bind. rewrite consumeMonthly_unfold.
  destruct (RATE_LIMIT_perMonth <=? month rc); simpl; [done |].
  pose proof (readJson_state fetched
    {| second := second rc; month := month rc + 1; lastReset := lastReset rc |}) as H.
  destruct (readJson fetched _) as [rc' [j | e]]; simpl in *; by subst.
Qed.

(** C10, as amended. A [brave_local_search] call with the key set, whose
    first web query is answered with at least one location id, that starts
    with a monthly count of at most 14997 and whose POI lookup is answered
    with a readable body, takes exactly 3 units of the monthly budget; the
    per-second count is incremented once, by [checkRateLimit] after its
    window reset, and the reset time is the one [checkRateLimit] left.
    [getPoisData] and [getDescriptionsData] never change the per-second
    count or the reset time, whatever they are answered. *)
Theorem local_search_budget (key : option string) (query : string) (count : Z)
    (w : world BravePoiResponse BraveDescription) (rc : requestCount)
    (r : response BraveWeb) (data : BraveWeb)
    (rp : response BravePoiResponse) (pois : BravePoiResponse) :
  keySet key = true ->
  webResponse w = Ok r -> ok r = true -> json r = Ok data ->
  locationIds data <> [] ->
  month rc <= 14997 ->
  poisResponse w = Ok rp -> ok rp = true -> json rp = Ok pois ->
  let rc' := fst (brave_local_search formatLocalResults key query count w rc) in
  (month rc' = month rc + 3 /\
   second rc' = second (resetWindow (now1 w) rc) + 1 /\
   lastReset rc' = lastReset (resetWindow (now1 w) rc)) /\
  (forall ids (fetched : result (response BravePoiResponse)) rc0,
     second (fst (getPoisData ids fetched rc0)) = second rc0 /\
     lastReset (fst (getPoisData ids fetched rc0)) = lastReset rc0) /\
  (forall ids (fetched : result (response BraveDescription)) rc0,
     second (fst (getDescriptionsData ids fetched rc0)) = second rc0 /\
     lastReset (fst (getDescriptionsData ids fetched rc0)) = lastReset rc0).
Proof.
  intros Hkey Hweb Hok Hjson Hids Hm Hpoi Hpok Hpjson. cbv zeta.
  split; [| split; intros ids fetched rc0;
            destruct (lookup_window fetched rc0) as (? & ? & _); done].
  assert (Hrun : exists rc2 out,
            brave_local_search formatLocalResults key query count w rc = (rc2, out) /\
            month rc2 = month rc + 3 /\
            second rc2 = second (resetWindow (now1 w) rc) + 1 /\
            lastReset rc2 = lastReset (resetWindow (now1 w) rc)).
  { unfold brave_local_search. rewrite Hkey.
    unfold performLocalSearch.
    erewrite bind_ok; [| apply checkRateLimit_allowed; lia].
    erewrite bind_ok; [| by apply (readJson_ok _ r data _ Hweb)].
    destruct (decide (locationIds data = [])) as [? | _]; [done |].
    unfold getPoisData.
    erewrite bind_ok;
      [| erewrite bind_ok;
         [by apply (readJson_ok _ rp pois _ Hpoi)
         | apply consumeMonthly_allowed; simpl; lia]].
    unfold getDescriptionsData.
    match goal with
    | |- context [bind (bind consumeMonthly ?k) _ ?s] =>
        pose proof (lookup_window (descriptionsResponse w) s) as Hw;
        cbv zeta in Hw; unfold bind at 1;
        destruct (bind consumeMonthly k s) as [rc2 [d | e]] eqn:E
    end;
    simpl in Hw; destruct Hw as (Hs & Hl & Hmo);
    (destruct (Z.leb_spec RATE_LIMIT_perMonth (month rc + 1 + 1)) as [Hb | _];
     [unfold RATE_LIMIT_perMonth in Hb; lia |]);
    eexists _, _; (split; [reflexivity |]); repeat split; lia. }
  destruct Hrun as (rc2 & out & -> & ? & ? & ?). done.
Qed.

End LocalBudget.

(** From a monthly count of 10 the three lookups leave it at 13, and the
    per-second count, reset by the elapsed window, at 1. *)
Lemma local_search_budget_witness :
  let rc := {| second := 4; month := 10; lastReset := 0 |} in
  let rc' := fst (brave_local_search (fun _ _ => "places") (Some "key")
                    "pizza" 5 all_ok rc) in
  month rc' = 13 /\ second rc' = 1 /\ lastReset rc' = 5000.
Proof.
  cbv zeta.
  destruct (local_search_budget unit unit (fun _ _ => "places") (Some "key")
              "pizza" 5 all_ok {| second := 4; month := 10; lastReset := 0 |}
              web_with_place
              {| web_results := None;
                 locations_results := Some [ {| id := Some "p1" |} ] |}
              {| ok := true; status := 200; statusText := "OK"; text := "";
                 json := Ok tt |} tt)
    as [(Hm & Hs & Hl) _]; try reflexivity.
  - simpl. discriminate.
  - simpl. lia.
  - cbv zeta in Hm, Hs, Hl. rewrite Hm, Hs, Hl. by vm_compute.
Defined.

(** C10, as stated, fails: with the key set and a first web query that
    returns a location id, a call that starts at a monthly count of 14999
    takes one unit only, since [getPoisData] then finds the budget
    exhausted. *)
Lemma local_search_budget_counterexample :
  ~ (forall (key : option string) (query : string) (count : Z)
            (w : world unit unit) (rc : requestCount)
            (r : response BraveWeb) (data : BraveWeb),
       keySet key = true ->
       webResponse w = Ok r -> ok r = true -> json r = Ok data ->
       locationIds data <> [] ->
       month rc < 15000 ->
       month (fst (brave_local_search (fun _ _ => "places") key query count w rc))
       = month rc + 3).
Proof.
  intros H.
  specialize (H (Some "key") "pizza" 5 all_ok
                {| second := 0; month := 14999; lastReset := 0 |}
                web_with_place _ eq_refl eq_refl eq_refl eq_refl).
  vm_compute in H.
  assert (Hne : [ "p1" ] <> []) by discriminate.
  specialize (H Hne eq_refl). discriminate H.
Qed.

End BraveProps.

(** ** Strings *)

Lemma prefix_app (p t : string) : String.prefix p (p +:+ t) = true.
Proof.
  induction p as [| c p IH]; simpl.
  - by destruct t.
  - destruct (ascii_dec c c); [done | congruence].
Qed.

Lemma prefix_app_l (p s t : string) :
  String.prefix p s = true -> String.prefix p (s +:+ t) = true.
Proof.
  revert s. induction p as [| c p IH]; intros s H; simpl.
  - by destruct (s +:+ t).
  - destruct s as [| d s]; simpl in *; [done |].
    destruct (ascii_dec c d); [by apply IH | done].
Qed.

Lemma includes_cons (c : ascii) (s p : string) :
  includes (String c s) p = String.prefix p (String c s) || includes s p.
Proof. reflexivity. Qed.

Lemma includes_nil (p : string) : includes "" p = String.prefix p "" || false.
Proof. reflexivity. Qed.

Lemma includes_prefix (s p : string) :
  String.prefix p s = true -> includes s p = true.
Proof.
  intros H. destruct s; [rewrite includes_nil | rewrite includes_cons];
    by rewrite H.
Qed.

Lemma includes_app_l (s t p : string) :
  includes s p = true -> includes (s +:+ t) p = true.
Proof.
  induction s as [| c s IH].
  - rewrite includes_nil, orb_false_r. intros H.
    apply includes_prefix. by apply (prefix_app_l p "" t).
  - rewrite includes_cons. intros H.
    change (String c s +:+ t) with (String c (s +:+ t)).
    rewrite includes_cons.
    apply orb_true_iff in H as [H | H].
    + change (String c (s +:+ t)) with (String c s +:+ t).
      by rewrite (prefix_app_l _ _ _ H).
    + rewrite (IH H). apply orb_true_r.
Qed.

Lemma includes_app_r (s t p : string) :
  includes t p = true -> includes (s +:+ t) p = true.
Proof.
  intros H. induction s as [| c s IH]; [done |].
  change (String c s +:+ t) with (String c (s +:+ t)).
  rewrite includes_cons, IH. apply orb_true_r.
Qed.

Lemma includes_middle (a p b : string) : includes (a +:+ p +:+ b) p = true.
Proof. apply includes_app_r, includes_prefix, prefix_app. Qed.

(** ** The vault guard *)

Module GuardProps.
Import Obsidian VaultExamples.

(** What the guard of [readObsidianFile], [obsidian-create] and
    [obsidian-update] does establish: a path that is let through starts
    with the root, as a string. *)
Lemma resolveFile_ok (root filePath normalizedPath fullPath : string) :
  resolveFile root filePath = Ok (normalizedPath, fullPath) ->
  normalizedPath = stripSlashes filePath /\
  fullPath = path.join [root; normalizedPath] /\
  startsWith fullPath root = true.
Proof.
  unfold resolveFile.
  destruct (startsWith (path.join [root; stripSlashes filePath]) root) eqn:E;
    simpl; [| done].
  intros [= <- <-]. by rewrite E.
Qed.


(** The same for the guard of [getObsidianFiles]. *)
Lemma resolveDir_ok (root cwd : string) (dirPath : templateVar)
    (normalizedDirPath fullPath : string) :
  resolveDir root cwd dirPath = Ok (normalizedDirPath, fullPath) ->
  fullPath = path.join [root; normalizedDirPath] /\
  startsWith fullPath root = true.
Proof.
  unfold resolveDir. destruct (firstOrSelf dirPath) as [s |]; [| done].
  match goal with
  | |- context [negb (startsWith ?f root)] =>
      destruct (startsWith f root) eqn:E; simpl; [| done]
  end.
  intros [= <- <-]. by rewrite E.
Qed.

(** C1, at a failing input. With the root [/a/b], the candidate
    [../bc/x.md] has a [..] segment, passes the guard of
    [readObsidianFile] and resolves to [/a/bc/x.md], which does not lie
    inside [/a/b]: the file of the sibling directory is read. The guard of
    [getObsidianFiles] lets [../bc] through in the same way and the
    sibling directory is listed. *)
Theorem dotdot_escapes_root :
  let root := "/a/b" in
  let cwd := "/" in
  hasDotDot "../bc/x.md" = true /\
  resolveFile root "../bc/x.md" = Ok ("../bc/x.md", "/a/bc/x.md") /\
  liesInside cwd root "/a/bc/x.md" = false /\
  readObsidianFile root cwd (fun _ => "t") "../bc/x.md" sibling_vault =
    Ok {| content := "secret";
          fileInfo := {| name := "x.md"; path := "../bc/x.md";
                         isDirectory := false; size := 6; modified := "t" |} |} /\
  getObsidianFiles root cwd (fun _ => "t") 0 (Str "../bc") sibling_vault =
    Ok {| files := [ {| name := "x.md"; path := "../bc/x.md";
                        isDirectory := false; size := 6; modified := "t" |} ];
          currentPath := "../bc" |}.
Proof. cbv zeta. repeat split; by vm_compute. Qed.

(** C2. The guard compares strings and no separator follows the root in
    the comparison: there are a root and a candidate, [/a/b] and [../bc],
    for which both guards let the path through, no error raised, though it
    resolves to [/a/bc], a sibling of the root (same parent directory) that
    does not lie inside it. *)
Theorem sibling_prefix_collision :
  exists root candidate fullPath : string,
    resolveFile root candidate = Ok (candidate, fullPath) /\
    resolveDir root "/" (Str candidate) = Ok (candidate, fullPath) /\
    startsWith fullPath root = true /\
    startsWith fullPath (root +:+ "/") = false /\
    path.dirname fullPath = path.dirname root /\
    fullPath <> root /\
    liesInside "/" root fullPath = false.
Proof.
  exists "/a/b", "../bc", "/a/bc". repeat split; by vm_compute.
Qed.

Section Denied.
Variables root cwd : string.
Variable toISOString : Z -> string.

Lemma resolveDir_denied (dirPathStr : string) :
  let normalizedDirPath :=
    if String.eqb dirPathStr "/" then "" else stripSlashes dirPathStr in
  let fullPath := path.join [root; normalizedDirPath] in
  startsWith fullPath root = false ->
  resolveDir root cwd (Str dirPathStr) =
  Throw (accessDeniedDetails root cwd dirPathStr normalizedDirPath fullPath).
Proof. cbv zeta. intros H. unfold resolveDir. simpl. by rewrite H. Qed.

Lemma details_expose (dirPathStr normalizedDirPath fullPath pre : string) :
  let out := pre +:+
    accessDeniedDetails root cwd dirPathStr normalizedDirPath fullPath in
  includes out root = true /\ includes out dirPathStr = true /\
  includes out fullPath = true /\ includes out cwd = true.
Proof.
  cbv zeta. unfold accessDeniedDetails.
  repeat split; apply includes_app_r;
    repeat first [ apply includes_middle
                 | apply includes_app_r; apply includes_middle
                 | apply includes_app_r ].
Qed.

(** C4, where the code departs from it. When the guard of
    [getObsidianFiles] rejects the path of an [obsidian-search] or
    [obsidian-content-search] call, the text returned to the caller is the
    prefix of the tool followed by the whole message of the error: the
    root, the candidate, the resolved path and the working directory all
    occur in it. *)
Theorem search_exposes_diagnostics (dir query : option string) (q : string)
    (now : Z) (st : State) :
  let dirPathStr := default "" dir in
  let normalizedDirPath :=
    if String.eqb dirPathStr "/" then "" else stripSlashes dirPathStr in
  let fullPath := path.join [root; normalizedDirPath] in
  let details :=
    accessDeniedDetails root cwd dirPathStr normalizedDirPath fullPath in
  let out := snd (obsidian_search root cwd toISOString dir query now st) in
  let out' := snd (obsidian_content_search root cwd toISOString q dir now st) in
  startsWith fullPath root = false ->
  (out = "Error searching files: " +:+ details /\
   includes out root = true /\ includes out dirPathStr = true /\
   includes out fullPath = true /\ includes out cwd = true) /\
  (out' = "Error searching file contents: " +:+ details /\
   includes out' root = true /\ includes out' dirPathStr = true /\
   includes out' fullPath = true /\ includes out' cwd = true).
Proof.
  cbv zeta. intros H.
  pose proof (resolveDir_denied (default "" dir) H) as Hd.
  unfold obsidian_search, obsidian_content_search, getObsidianFiles.
  rewrite Hd. simpl result_bind. cbv iota. simpl snd. unfold messageOf.
  split; (split; [reflexivity | apply details_expose]).
Qed.

(** The guard of [readObsidianFile] words its error without any of them,
    and [obsidian-view] returns just that. *)
Lemma view_denied (toLocaleString : Z -> string) (Date_parse : string -> Z)
    (filePath : string) (st : State) :
  resourceCache st !! ("obsidian://" +:+ filePath +:+ "/read") = None ->
  startsWith (path.join [root; stripSlashes filePath]) root = false ->
  obsidian_view root cwd toISOString Date_parse toLocaleString filePath st =
  (st, "Error reading file: Access denied: Path outside of allowed directory").
Proof.
  intros Hc H. unfold obsidian_view. rewrite Hc.
  unfold readObsidianFile, resolveFile. by rewrite H.
Qed.

End Denied.

(** With the root [/vault] and the process in [/home/me], a search in
    [../../etc] answers with the details of the guard. *)
Lemma search_exposes_diagnostics_witness :
  let out := snd (obsidian_search "/vault" "/home/me" (fun _ => "t")
                    (Some "../../etc") None 0
                    {| vault := ∅; resourceCache := ∅ |}) in
  includes out "OBSIDIAN_VAULT_PATH: /vault" = true /\
  includes out "process.cwd(): /home/me" = true /\
  includes out "/vault" = true /\ includes out "/home/me" = true.
Proof.
  cbv zeta.
  destruct (search_exposes_diagnostics "/vault" "/home/me" (fun _ => "t")
              (Some "../../etc") None "q" 0
              {| vault := ∅; resourceCache := ∅ |})
    as [(Hout & Hroot & _ & _ & Hcwd) _].
  - by vm_compute.
  - cbv zeta in Hroot, Hcwd. rewrite Hroot, Hcwd.
    repeat split; by vm_compute.
Defined.

End GuardProps.

(** ** The file tools *)

Module FileProps.
Import Obsidian VaultExamples.

Section Files.
Variables root cwd : string.
Variable toISOString : Z -> string.
Variable toLocaleString : Z -> string.

Lemma lookupNode_file_inv (fs : gmap (list string) node) (syscall p : string)
    (data : string) (m b : Z) :
  lookupNode cwd fs syscall p = Ok (File data m b) ->
  key cwd p <> [] /\ fs !! key cwd p = Some (File data m b) /\
  path.endsWithSlash p = false.
Proof.
  unfold lookupNode. destruct (key cwd p) as [| seg k] eqn:Ek; [done |].
  destruct (fs !! (seg :: k)) as [[d m' b' | | m'] |] eqn:El; try done;
    destruct (path.endsWithSlash p); try done.
  by intros [= -> -> ->].
Qed.

Lemma lookupNode_file (fs : gmap (list string) node) (syscall p : string)
    (data : string) (m b : Z) :
  key cwd p <> [] -> fs !! key cwd p = Some (File data m b) ->
  path.endsWithSlash p = false ->
  lookupNode cwd fs syscall p = Ok (File data m b).
Proof.
  intros Hk Hl Hs. unfold lookupNode.
  destruct (key cwd p) as [| seg k] eqn:Ek; [done |].
  by rewrite Hl, Hs.
Qed.

(** Writing over a regular file replaces its text and its modification
    time, and nothing else in the tree. *)
Lemma writeFile_existing (fs : gmap (list string) node) (p data data' : string)
    (m b now : Z) :
  fs_stat cwd fs p = Ok (File data m b) ->
  fs_writeFile cwd p data' now fs =
  (<[key cwd p := File data' now b]> fs, Ok tt).
Proof.
  intros H. apply lookupNode_file_inv in H as (Hk & Hl & Hs).
  unfold fs_writeFile. destruct (key cwd p) as [| seg k] eqn:Ek; [done |].
  by rewrite Hl, Hs.
Qed.

Lemma stat_after_write (fs : gmap (list string) node) (syscall p data data' : string)
    (m b now : Z) :
  fs_stat cwd fs p = Ok (File data m b) ->
  lookupNode cwd (<[key cwd p := File data' now b]> fs) syscall p =
  Ok (File data' now b).
Proof.
  intros H. apply lookupNode_file_inv in H as (Hk & Hl & Hs).
  apply lookupNode_file; [done | | done]. apply lookup_insert_eq.
Qed.

(** What [readObsidianFile] returns for a regular file. *)
Lemma read_file (fs : gmap (list string) node) (filePath normalizedPath fullPath : string)
    (data : string) (m b : Z) :
  resolveFile root filePath = Ok (normalizedPath, fullPath) ->
  fs_stat cwd fs fullPath = Ok (File data m b) ->
  readObsidianFile root cwd toISOString filePath fs =
  Ok {| content := data;
        fileInfo := {| name := path.basename fullPath;
                       path := normalizedPath;
                       isDirectory := false;
                       size := utf8Length data;
                       modified := toISOString m |} |}.
Proof.
  intros Hr Hs. unfold readObsidianFile. rewrite Hr. simpl result_bind.
  rewrite Hs. simpl. unfold fs_readFile.
  unfold fs_stat in Hs. apply lookupNode_file_inv in Hs as (Hk & Hl & Hsl).
  by rewrite (lookupNode_file _ "open" _ _ _ _ Hk Hl Hsl).
Qed.

(** C5. When the path of a [create] call passes the guard and names an
    existing regular file, and [overwrite] is false, the call changes
    nothing: the state it leaves is the state it found, so the file reads
    as before; its answer is the "File already exists" text, which is
    neither the text of a successful creation nor the text the handler
    gives for an error. *)
Theorem create_existing_no_overwrite (filePath content : string) (now : Z)
    (st : State) (normalizedPath fullPath data : string) (m b : Z) :
  resolveFile root filePath = Ok (normalizedPath, fullPath) ->
  fs_stat cwd (vault st) fullPath = Ok (File data m b) ->
  let out := obsidian_create root cwd toLocaleString filePath content false now st in
  out = (st, alreadyExists normalizedPath) /\
  fs_readFile cwd (vault (fst out)) fullPath = Ok data /\
  (forall np stats, snd out <> createdText toLocaleString np stats) /\
  (forall e, snd out <> "Error creating file: " +:+ e).
Proof.
  intros Hr Hs. cbv zeta.
  assert (Hout : obsidian_create root cwd toLocaleString filePath content
                   false now st = (st, alreadyExists normalizedPath)).
  { unfold obsidian_create.
    erewrite bind_ok; [| unfold lift; by rewrite Hr].
    cbv beta iota zeta.
    erewrite bind_ok.
    2:{ unfold try_catch. erewrite bind_ok; [reflexivity |].
        unfold reading, fs_access. unfold fs_stat in Hs.
        apply lookupNode_file_inv in Hs as (Hk & Hl & Hsl).
        by rewrite (lookupNode_file _ "access" _ _ _ _ Hk Hl Hsl). }
    reflexivity. }
  rewrite Hout. simpl fst. simpl snd.
  split; [done |]. split.
  - unfold fs_readFile. unfold fs_stat in Hs.
    apply lookupNode_file_inv in Hs as (Hk & Hl & Hsl).
    by rewrite (lookupNode_file _ "open" _ _ _ _ Hk Hl Hsl).
  - split; intros; unfold alreadyExists, createdText; simpl; discriminate.
Qed.

(** C6. When the path of an [update] call passes the guard and names an
    existing regular file with text [c], the call writes [c], one newline
    and the new text if [append] is set, and the new text alone if not;
    only that entry of the tree changes, the cache is untouched, and
    [readObsidianFile] then returns what was written. *)
Theorem update_writes (filePath n : string) (append : bool) (now : Z)
    (st : State) (normalizedPath fullPath c : string) (m b : Z) :
  resolveFile root filePath = Ok (normalizedPath, fullPath) ->
  fs_stat cwd (vault st) fullPath = Ok (File c m b) ->
  let written := if append then c +:+ nl +:+ n else n in
  let out := obsidian_update root cwd toLocaleString filePath n append now st in
  snd out = updatedText toLocaleString normalizedPath (File written now b) append /\
  vault (fst out) = <[key cwd fullPath := File written now b]> (vault st) /\
  resourceCache (fst out) = resourceCache st /\
  fs_readFile cwd (vault (fst out)) fullPath = Ok written /\
  readObsidianFile root cwd toISOString filePath (vault (fst out)) =
    Ok {| content := written;
          fileInfo := {| name := path.basename fullPath;
                         path := normalizedPath;
                         isDirectory := false;
                         size := utf8Length written;
                         modified := toISOString now |} |}.
Proof.
  intros Hr Hs. cbv zeta.
  set (written := if append then c +:+ nl +:+ n else n).
  assert (Hout : obsidian_update root cwd toLocaleString filePath n append now st =
                 (set_vault (<[key cwd fullPath := File written now b]> (vault st)) st,
                  updatedText toLocaleString normalizedPath (File written now b) append)).
  { unfold obsidian_update.
    erewrite bind_ok; [| unfold lift; by rewrite Hr].
    cbv beta iota zeta.
    erewrite bind_ok.
    2:{ unfold try_catch. erewrite bind_ok; [| unfold reading; cbv beta; by rewrite Hs].
        reflexivity. }
    erewrite (bind_ok _ _ _ st written).
    2:{ destruct append; [| reflexivity].
        erewrite bind_ok; [reflexivity |].
        unfold reading, fs_readFile. cbv beta. unfold fs_stat in Hs.
        apply lookupNode_file_inv in Hs as (Hk & Hl & Hsl).
        by rewrite (lookupNode_file _ "open" _ _ _ _ Hk Hl Hsl). }
    erewrite bind_ok.
    2:{ unfold writing. by rewrite (writeFile_existing _ _ _ _ _ _ _ Hs). }
    erewrite bind_ok.
    2:{ unfold reading. cbv beta. simpl vault. unfold fs_stat.
        by rewrite (stat_after_write _ "stat" _ _ _ _ _ _ Hs). }
    reflexivity. }
  rewrite Hout. simpl fst. simpl snd. simpl vault.
  assert (Hs' : fs_stat cwd (<[key cwd fullPath := File written now b]> (vault st))
                  fullPath = Ok (File written now b))
    by (by apply (stat_after_write _ "stat" _ _ _ _ _ _ Hs)).
  repeat split.
  - unfold fs_readFile.
    by rewrite (stat_after_write _ "open" _ _ _ _ _ _ Hs).
  - by apply (read_file _ _ _ _ _ _ _ Hr Hs').
Qed.

End Files.

(** [create("a.md", "other", false)] on it answers with the conflict text
    and leaves "hello" in place. *)
Lemma create_existing_no_overwrite_witness :
  obsidian_create "/vault" "/" (fun _ => "t") "a.md" "other" false 9 hello_vault =
    (hello_vault, "File already exists: a.md. Use overwrite=true to replace it.") /\
  fs_readFile "/" (vault hello_vault) "/vault/a.md" = Ok "hello".
Proof.
  destruct (create_existing_no_overwrite "/vault" "/" (fun _ => "t")
              "a.md" "other" 9 hello_vault "a.md" "/vault/a.md" "hello" 1 1)
    as (Hout & Hread & _).
  - by vm_compute.
  - by vm_compute.
  - cbv zeta in Hout, Hread. rewrite Hout in Hread. by rewrite Hout.
Defined.

(** [update("a.md", "world", append = true)] on it, then a read: the note
    reads "hello", a newline, "world". *)
Lemma update_writes_witness :
  let st' := fst (obsidian_update "/vault" "/" (fun _ => "t") "a.md" "world"
                    true 9 hello_vault) in
  content <$> (match readObsidianFile "/vault" "/" (fun _ => "t") "a.md" (vault st')
               with Ok d => Some d | Throw _ => None end) =
  Some ("hello" +:+ nl +:+ "world").
Proof.
  cbv zeta.
  destruct (update_writes "/vault" "/" (fun _ => "t") (fun _ => "t")
              "a.md" "world" true 9 hello_vault "a.md" "/vault/a.md" "hello" 1 1)
    as (_ & _ & _ & _ & Hread).
  - by vm_compute.
  - by vm_compute.
  - cbv zeta in Hread. by rewrite Hread.
Defined.

End FileProps.

(** ** The content search *)

Module SearchProps.
Import Obsidian VaultExamples.

Lemma marked_from (lowerQuery : string) (lines : list string) (i : nat) :
  map (fun '(line, text, _) => {| line := line; text := text |})
    (filter (fun '(_, _, matches) => matches = true)
       (imap (fun index line =>
                (Z.of_nat (i + index) + 1, line,
                 includes (toLowerCase line) lowerQuery)) lines))
  = matchesFrom i lowerQuery lines.
Proof.
  revert i. induction lines as [| l ls IH]; intros i; [done |].
  cbn [imap matchesFrom].
  rewrite (imap_ext _ (fun index line =>
             (Z.of_nat (S i + index) + 1, line,
              includes (toLowerCase line) lowerQuery)))
    by (intros; simpl; do 3 f_equal; lia).
  replace (i + 0)%nat with i by lia.
  destruct (includes (toLowerCase l) lowerQuery) eqn:E.
  - rewrite filter_cons_True by done. simpl. f_equal. apply (IH (S i)).
  - rewrite filter_cons_False by done. apply (IH (S i)).
Qed.

Lemma matchingLines_matchesFrom (content lowerQuery : string) :
  matchingLines content lowerQuery =
  matchesFrom 0 lowerQuery (split (ascii_of_nat 10) content).
Proof. unfold matchingLines. apply (marked_from lowerQuery _ 0). Qed.

Lemma matchesFrom_bound (i : nat) (q : string) (lines : list string) (m : lineMatch) :
  m ∈ matchesFrom i q lines -> Z.of_nat i < line m.
Proof.
  revert i. induction lines as [| l ls IH]; intros i; simpl; [by intros ?%elem_of_nil |].
  destruct (includes (toLowerCase l) q).
  - intros [-> | H]%elem_of_cons; simpl; [lia |]. apply IH in H. lia.
  - intros H. apply IH in H. lia.
Qed.

Lemma matchesFrom_sorted (i : nat) (q : string) (lines : list string) :
  StronglySorted Z.lt (map line (matchesFrom i q lines)).
Proof.
  revert i. induction lines as [| l ls IH]; intros i; simpl; [constructor |].
  destruct (includes (toLowerCase l) q); [| apply IH].
  simpl. constructor; [apply IH |].
  apply Forall_forall. intros z [m [-> Hm]]%list_elem_of_fmap.
  apply matchesFrom_bound in Hm. lia.
Qed.

Lemma matchesFrom_sound (i : nat) (q : string) (lines : list string) (m : lineMatch) :
  m ∈ matchesFrom i q lines ->
  Z.of_nat i < line m /\
  lines !! (Z.to_nat (line m - 1) - i)%nat = Some (text m) /\
  includes (toLowerCase (text m)) q = true.
Proof.
  revert i. induction lines as [| l ls IH]; intros i; simpl; [by intros ?%elem_of_nil |].
  destruct (includes (toLowerCase l) q) eqn:E.
  - intros [-> | H]%elem_of_cons; simpl.
    + split; [lia |]. split; [| done].
      by replace (Z.to_nat (Z.of_nat i + 1 - 1) - i)%nat with 0%nat by lia.
    + apply IH in H as (Hlt & Hl & Hin). split; [lia |]. split; [| done].
      replace (Z.to_nat (line m - 1) - i)%nat
        with (S (Z.to_nat (line m - 1) - S i))%nat by lia. done.
  - intros H. apply IH in H as (Hlt & Hl & Hin). split; [lia |]. split; [| done].
    replace (Z.to_nat (line m - 1) - i)%nat
      with (S (Z.to_nat (line m - 1) - S i))%nat by lia. done.
Qed.

Lemma matchesFrom_complete (i : nat) (q : string) (lines : list string)
    (j : nat) (t : string) :
  lines !! j = Some t -> includes (toLowerCase t) q = true ->
  {| line := Z.of_nat (i + j) + 1; text := t |} ∈ matchesFrom i q lines.
Proof.
  revert i j. induction lines as [| l ls IH]; intros i j; simpl; [done |].
  destruct j as [| j]; simpl.
  - intros [= ->] ->. replace (i + 0)%nat with i by lia. apply list_elem_of_here.
  - intros Hl Hin. replace (i + S j)%nat with (S i + j)%nat by lia.
    destruct (includes (toLowerCase l) q);
      [apply list_elem_of_further |]; by apply IH.
Qed.

Lemma preview_spec (content : string) :
  ((String.length content <= 200)%nat -> preview content = content) /\
  ((200 < String.length content)%nat ->
     preview content = substringTo 200 content +:+ "...").
Proof.
  unfold preview.
  destruct (Nat.ltb_spec 200 (String.length content)); split; intros; try done; lia.
Qed.

(** Texts built by appending one piece for each element of a list. *)
Lemma fold_append_prefix {A : Type} (f : A -> string) (l : list A) (init p : string) :
  String.prefix p init = true ->
  String.prefix p (fold_left (fun acc x => acc +:+ f x) l init) = true.
Proof.
  revert init. induction l as [| x l IH]; intros init H; [done |].
  simpl. apply IH. by apply prefix_app_l.
Qed.

Lemma fold_append_includes_init {A : Type} (f : A -> string) (l : list A)
    (init p : string) :
  includes init p = true ->
  includes (fold_left (fun acc x => acc +:+ f x) l init) p = true.
Proof.
  revert init. induction l as [| x l IH]; intros init H; [done |].
  simpl. apply IH. by apply includes_app_l.
Qed.

Lemma fold_append_includes {A : Type} (f : A -> string) (l : list A)
    (init p : string) (x : A) :
  x ∈ l -> includes (f x) p = true ->
  includes (fold_left (fun acc x => acc +:+ f x) l init) p = true.
Proof.
  intros Hin Hp. revert init.
  induction l as [| y l IH]; intros init; [by apply elem_of_nil in Hin |].
  simpl. apply elem_of_cons in Hin as [<- | Hin].
  - apply fold_append_includes_init. by apply includes_app_r.
  - by apply IH.
Qed.

Lemma prefix_refl (p : string) : String.prefix p p = true.
Proof.
  induction p as [| c p IH]; simpl; [done |].
  destruct (ascii_dec c c); [done | congruence].
Qed.

Lemma prefix_append_mono (a p s : string) :
  String.prefix p s = true -> String.prefix (a +:+ p) (a +:+ s) = true.
Proof.
  intros H. induction a as [| c a IH]; [done |].
  change (String.prefix (String c (a +:+ p)) (String c (a +:+ s)) = true).
  simpl. destruct (ascii_dec c c); [done | congruence].
Qed.

(** The report opens with its heading. *)
Lemma searchReport_heading (query currentPath : string) (results : list searchResult) :
  startsWith (searchReport query currentPath results)
    ("Search results for " +:+ dquote +:+ query +:+ dquote +:+ " in " +:+
     orRoot currentPath +:+ ":" +:+ nl +:+ nl) = true.
Proof.
  unfold startsWith, searchReport. cbv zeta.
  destruct (decide (results = [])).
  - apply prefix_app_l, prefix_refl.
  - apply prefix_app_l, fold_append_prefix, prefix_refl.
Qed.

(** A report is no error text. *)
Lemma searchReport_no_error (query currentPath : string) (results : list searchResult)
    (e : string) :
  searchReport query currentPath results <> "Error searching file contents: " +:+ e.
Proof.
  intros E. pose proof (searchReport_heading query currentPath results) as H.
  rewrite E in H. unfold startsWith in H.
  change (String.prefix (String "S" ("earch results for " +:+ dquote +:+ query +:+ dquote +:+
            " in " +:+ orRoot currentPath +:+ ":" +:+ nl +:+ nl))
            (String "E" ("rror searching file contents: " +:+ e)) = true) in H.
  simpl in H. done.
Qed.

(** What is in the block of a result is in the report. *)
Lemma searchReport_includes (query currentPath : string) (results : list searchResult)
    (r : searchResult) (p : string) :
  r ∈ results -> includes (resultBlock r) p = true ->
  includes (searchReport query currentPath results) p = true.
Proof.
  intros Hin Hp. unfold searchReport. cbv zeta.
  destruct (decide (results = [])) as [-> | _]; [by apply elem_of_nil in Hin |].
  apply includes_app_l. by apply (fold_append_includes resultBlock _ _ _ r).
Qed.

(** The block of a result: the line of the file, then the lines of the
    matches. *)
Lemma resultBlock_name (r : searchResult) :
  includes (resultBlock r)
    (name (result_fileInfo r) +:+ " (" +:+
     formatFileSize (size (result_fileInfo r)) +:+ ")" +:+ nl) = true.
Proof.
  unfold resultBlock. apply includes_prefix.
  do 4 apply prefix_append_mono. apply prefix_app.
Qed.

Lemma resultBlock_match (r : searchResult) (m : lineMatch) :
  m ∈ result_matches r ->
  includes (resultBlock r)
    ("  Line " +:+ Number_toString (line m) +:+ ": " +:+
     (if (100 <? String.length (text m))%nat
      then substringTo 100 (text m) +:+ "..." else text m) +:+ nl) = true.
Proof.
  intros Hin. unfold resultBlock.
  do 5 apply includes_app_r. apply includes_app_l.
  destruct (decide (result_matches r = [])) as [E | _].
  - rewrite E in Hin. by apply elem_of_nil in Hin.
  - apply (fold_append_includes matchLine _ _ _ m Hin).
    unfold matchLine. cbv zeta. apply includes_prefix, prefix_refl.
Qed.

Section Search.
Variables root cwd : string.
Variable toISOString : Z -> string.

(** C7, as amended. For a candidate file that is read and whose text
    contains the query, case ignored, the search pushes one result: its
    matches are the first 5 of the matching lines of the text (all of them
    if there are fewer, exactly 5 if there are 10), where the matching
    lines are all the lines whose lower-case form contains the lower-case
    query, each with its 1-based number, in ascending order of the
    numbers; the stored preview is the text itself if it has at most 200
    characters, and else its first 200 characters followed by "...". *)
Theorem content_search_per_file (query : string) (file : FileInfo)
    (fs : gmap (list string) node) (fileData : FileData) :
  readObsidianFile root cwd toISOString (path file) fs = Ok fileData ->
  includes (toLowerCase (content fileData)) (toLowerCase query) = true ->
  let lines := split (ascii_of_nat 10) (content fileData) in
  let all := matchingLines (content fileData) (toLowerCase query) in
  exists r : searchResult,
    searchFile root cwd toISOString query file fs = Ok (Some r) /\
    result_fileInfo r = fileInfo fileData /\
    result_matches r = firstn 5 all /\
    length (result_matches r) = min 5 (length all) /\
    (length all = 10%nat -> length (result_matches r) = 5%nat) /\
    StronglySorted Z.lt (map line all) /\
    StronglySorted Z.lt (map line (result_matches r)) /\
    (forall m, m ∈ all <->
       1 <= line m /\ lines !! Z.to_nat (line m - 1) = Some (text m) /\
       includes (toLowerCase (text m)) (toLowerCase query) = true) /\
    ((String.length (content fileData) <= 200)%nat ->
       result_content r = content fileData) /\
    ((200 < String.length (content fileData))%nat ->
       result_content r = substringTo 200 (content fileData) +:+ "...").
Proof.
  intros Hread Hin. cbv zeta.
  eexists. split.
  { unfold searchFile. rewrite Hread. simpl result_bind. rewrite Hin. reflexivity. }
  cbn [result_fileInfo result_matches result_content].
  rewrite matchingLines_matchesFrom.
  set (all := matchesFrom 0 _ _).
  assert (Hsorted : StronglySorted Z.lt (map line all)) by apply matchesFrom_sorted.
  repeat split.
  - apply length_take.
  - intros H. rewrite length_take, H. done.
  - done.
  - rewrite <- (take_drop 5 all), fmap_app in Hsorted.
    by apply StronglySorted_app_1_l in Hsorted.
  - apply matchesFrom_sound in H. lia.
  - apply matchesFrom_sound in H as (_ & H & _).
    by rewrite Nat.sub_0_r in H.
  - by apply matchesFrom_sound in H as (_ & _ & H).
  - intros (Hpos & Hl & Hq). destruct m as [n t]; simpl in *.
    pose proof (matchesFrom_complete 0 _ _ _ _ Hl Hq) as H.
    replace (Z.of_nat (0 + Z.to_nat (n - 1)) + 1) with n in H by lia. done.
  - apply preview_spec.
  - apply preview_spec.
Qed.

Lemma searchLoop_omap (query : string) (fs : gmap (list string) node)
    (filesToSearch : list FileInfo) (searchResults : list searchResult)
    (logged : list string) :
  searchLoop root cwd toISOString query fs filesToSearch searchResults logged =
  (searchResults ++ omap (pushed root cwd toISOString query fs) filesToSearch,
   logged ++ omap (complaint root cwd toISOString query fs) filesToSearch).
Proof.
  revert searchResults logged.
  induction filesToSearch as [| file rest IH]; intros searchResults logged.
  - simpl. by rewrite !app_nil_r.
  - cbn [searchLoop omap list_omap]. unfold pushed at 1, complaint at 1.
    destruct (searchFile root cwd toISOString query file fs) as [[r |] | err];
      rewrite IH; by rewrite <- ?app_assoc.
Qed.

Lemma searchFile_throw (query : string) (file : FileInfo)
    (fs : gmap (list string) node) (e : string) :
  readObsidianFile root cwd toISOString (path file) fs = Throw e ->
  searchFile root cwd toISOString query file fs = Throw e.
Proof. intros H. unfold searchFile. by rewrite H. Qed.

(** C8. When the read of one of the candidate files throws, the loop
    goes on: the results are those of the files before it followed by
    those of the files after it, so every result of another file is there;
    the error is written to the error stream; and the tool answers with
    the report on these results, not with an error. The answer opens
    with the heading of the report and is no "Error searching file
    contents" text; for every other file that matches, it holds the line
    with the name and the size of the file and the line of each of its
    reported matches; and it closes with the count of the files found, or
    says that nothing was found when no other file matches. *)
Theorem content_search_skips_failed_file (query : string)
    (fs : gmap (list string) node) (before after : list FileInfo)
    (file : FileInfo) (e : string) :
  readObsidianFile root cwd toISOString (path file) fs = Throw e ->
  let run := searchLoop root cwd toISOString query fs
               (before ++ file :: after) [] [] in
  let others := searchLoop root cwd toISOString query fs
                  (before ++ after) [] [] in
  fst run =
    fst (searchLoop root cwd toISOString query fs before [] []) ++
    fst (searchLoop root cwd toISOString query fs after [] []) /\
  fst run = fst others /\
  (forall g r, g ∈ before ++ after ->
     searchFile root cwd toISOString query g fs = Ok (Some r) -> r ∈ fst run) /\
  ("Error searching file " +:+ path file +:+ ": " +:+ Error_toString e) ∈ snd run /\
  (forall (st : State) (searchPath : option string) (now : Z)
          (fileListResult : FileListResult),
     vault st = fs ->
     getObsidianFiles root cwd toISOString now (Str (default "" searchPath)) fs
       = Ok fileListResult ->
     filter (fun f => searchable f = true) (files fileListResult)
       = before ++ file :: after ->
     let out := obsidian_content_search root cwd toISOString query searchPath now st in
     let heading :=
       "Search results for " +:+ dquote +:+ query +:+ dquote +:+ " in " +:+
       orRoot (currentPath fileListResult) +:+ ":" +:+ nl +:+ nl in
     out = (st, searchReport query (currentPath fileListResult) (fst others)) /\
     startsWith (snd out) heading = true /\
     (forall e', snd out <> "Error searching file contents: " +:+ e') /\
     (forall g r, g ∈ before ++ after ->
        searchFile root cwd toISOString query g fs = Ok (Some r) ->
        includes (snd out)
          (name (result_fileInfo r) +:+ " (" +:+
           formatFileSize (size (result_fileInfo r)) +:+ ")" +:+ nl) = true /\
        forall m, m ∈ result_matches r ->
          includes (snd out)
            ("  Line " +:+ Number_toString (line m) +:+ ": " +:+
             (if (100 <? String.length (text m))%nat
              then substringTo 100 (text m) +:+ "..." else text m) +:+ nl) = true) /\
     (fst others = [] -> snd out = heading +:+ "No matches found in any files.") /\
     (fst others <> [] ->
        includes (snd out)
          ("Found " +:+ Number_toString (Z.of_nat (length (fst others))) +:+
           " files containing " +:+ dquote +:+ query +:+ dquote +:+ "." +:+ nl) = true)).
Proof.
  intros Hread. cbv zeta. apply (searchFile_throw query) in Hread.
  rewrite !searchLoop_omap. cbn [fst snd app].
  assert (Hskip : omap (pushed root cwd toISOString query fs) (before ++ file :: after) =
                  omap (pushed root cwd toISOString query fs) before ++ omap (pushed root cwd toISOString query fs) after).
  { rewrite omap_app. cbn [omap list_omap]. unfold pushed at 2. by rewrite Hread. }
  assert (Hmem : forall g r, g ∈ before ++ after ->
            searchFile root cwd toISOString query g fs = Ok (Some r) ->
            r ∈ omap (pushed root cwd toISOString query fs) (before ++ after)).
  { intros g r Hg Hr. apply list_elem_of_omap.
    exists g. split; [done |]. unfold pushed. by rewrite Hr. }
  rewrite Hskip. split; [done |]. split; [by rewrite omap_app |]. split; [| split].
  - intros g r Hg Hr. rewrite <- omap_app. by apply (Hmem g).
  - rewrite omap_app. apply elem_of_app. right. cbn [omap list_omap].
    unfold complaint at 1. rewrite Hread. apply list_elem_of_here.
  - intros st searchPath now fileListResult Hfs Hlist Hfilter.
    assert (Hout : obsidian_content_search root cwd toISOString query searchPath now st =
              (st, searchReport query (currentPath fileListResult)
                     (omap (pushed root cwd toISOString query fs) (before ++ after)))).
    { unfold obsidian_content_search. rewrite Hfs, Hlist, Hfilter.
      rewrite searchLoop_omap. cbn [fst app]. by rewrite Hskip, omap_app. }
    rewrite Hout. cbn [snd].
    split; [done |]. split; [apply searchReport_heading |].
    split; [intros e'; apply searchReport_no_error |]. split; [| split].
    + intros g r Hg Hr. pose proof (Hmem g r Hg Hr) as Hin. split.
      * apply (searchReport_includes _ _ _ r); [done | apply resultBlock_name].
      * intros m Hm.
        apply (searchReport_includes _ _ _ r); [done | by apply resultBlock_match].
    + intros ->. done.
    + intros Hne. unfold searchReport. cbv zeta. rewrite decide_False by done.
      apply includes_app_r, includes_prefix, prefix_refl.
Qed.

End Search.

(** The note of ten matching lines yields the lines 1 to 5. *)
Lemma content_search_per_file_witness :
  exists r : searchResult,
    searchFile "/vault" "/" (fun _ => "t") "todo" (note "ten.md" 100) search_vault
      = Ok (Some r) /\
    map line (result_matches r) = [1; 2; 3; 4; 5].
Proof.
  destruct (content_search_per_file "/vault" "/" (fun _ => "t") "todo"
              (note "ten.md" 100) search_vault
              {| content := ten_lines; fileInfo := note "ten.md" 100 |})
    as (r & Hr & _ & Hm & _).
  - by vm_compute.
  - by vm_compute.
  - exists r. split; [exact Hr |]. rewrite Hm. by vm_compute.
Defined.

(** C7, as stated, fails on the preview: for a text of 201 characters
    the stored preview has 203 characters, the first 200 and "...". *)
Lemma preview_length_counterexample :
  ~ (forall (query : string) (file : FileInfo) (fs : gmap (list string) node)
            (r : searchResult),
       searchFile "/vault" "/" (fun _ => "t") query file fs = Ok (Some r) ->
       (String.length (result_content r) <= 200)%nat).
Proof.
  intros H.
  assert (Hr : exists r,
             searchFile "/vault" "/" (fun _ => "t") "a" (note "long.md" 201)
               search_vault = Ok (Some r) /\
             String.length (result_content r) = 203%nat).
  { vm_compute. eexists. split; reflexivity. }
  destruct Hr as (r & Hr & Hlen). apply H in Hr. lia.
Qed.

(** A search for "a" in the vault with three notes and a socket. The
    socket [sock.md] cannot be read; the note listed before it and the
    note listed after it are both in the answer of the tool, which is a
    report and no error. *)
Lemma content_search_skips_failed_file_witness :
  let st := {| vault := search_vault; resourceCache := ∅ |} in
  let text := snd (obsidian_content_search "/vault" "/" (fun _ => "t") "a" None 9 st) in
  includes text ("ten.md (100 B)" +:+ nl) = true /\
  includes text ("  Line 5: a todo five" +:+ nl) = true /\
  includes text ("long.md (201 B)" +:+ nl) = true /\
  includes text ("Found 2 files containing " +:+ dquote +:+ "a" +:+ dquote +:+ "." +:+ nl)
    = true /\
  text <> "Error searching file contents: " +:+
          "Not a file: Directory cannot be read as a file" /\
  snd (searchLoop "/vault" "/" (fun _ => "t") "a" search_vault
         [note "plan.txt" 12; note "ten.md" 100; note "sock.md" 0; note "long.md" 201]
         [] []) =
  ["Error searching file sock.md: Error: Not a file: Directory cannot be read as a file"].
Proof.
  cbv zeta.
  destruct (content_search_skips_failed_file "/vault" "/" (fun _ => "t") "a"
              search_vault [note "plan.txt" 12; note "ten.md" 100] [note "long.md" 201]
              (note "sock.md" 0)
              "Not a file: Directory cannot be read as a file")
    as (_ & _ & _ & _ & Htool).
  - by vm_compute.
  - destruct (Htool {| vault := search_vault; resourceCache := ∅ |} None 9
                {| files := [note "plan.txt" 12; note "ten.md" 100; note "sock.md" 0;
                             note "long.md" 201];
                   currentPath := "" |})
      as (_ & _ & Hnoerr & _ & _ & _).
    + done.
    + by vm_compute.
    + by vm_compute.
    + split; [by vm_compute |]. split; [by vm_compute |]. split; [by vm_compute |].
      split; [by vm_compute |]. split; [apply Hnoerr | by vm_compute].
Defined.

End SearchProps.

(** ** The response cache *)

Module CacheProps.
Import Obsidian VaultExamples.

Lemma keeps_ret {A : Type} (a : A) : keeps_cache (ret a).
Proof. by intros st. Qed.

Lemma keeps_throw {A : Type} (e : string) : keeps_cache (@throw State A e).
Proof. by intros st. Qed.

Lemma keeps_lift {A : Type} (r : result A) : keeps_cache (lift r).
Proof. by intros st. Qed.

Lemma keeps_reading {A : Type} (f : gmap (list string) node -> result A) :
  keeps_cache (reading f).
Proof. by intros st. Qed.

Lemma keeps_writing {A : Type} (f : M (gmap (list string) node) A) :
  keeps_cache (writing f).
Proof. intros st. unfold writing. by destruct (f (vault st)). Qed.

Lemma keeps_bind {A B : Type} (m : M State A) (k : A -> M State B) :
  keeps_cache m -> (forall a, keeps_cache (k a)) -> keeps_cache (bind m k).
Proof.
  intros Hm Hk st. unfold bind. specialize (Hm st).
  destruct (m st) as [st' [a | e]]; simpl in *; [| done].
  by rewrite Hk.
Qed.

Lemma keeps_try_catch {A : Type} (m : M State A) (h : string -> M State A) :
  keeps_cache m -> (forall e, keeps_cache (h e)) -> keeps_cache (try_catch m h).
Proof.
  intros Hm Hh st. unfold try_catch. specialize (Hm st).
  destruct (m st) as [st' [a | e]]; simpl in *; [done |].
  by rewrite Hh.
Qed.

Ltac keeps :=
  repeat first
    [ apply keeps_ret | apply keeps_throw | apply keeps_lift
    | apply keeps_reading | apply keeps_writing
    | apply keeps_bind; [| intros ?]
    | apply keeps_try_catch; [| intros ?]
    | match goal with
      | |- keeps_cache (if ?b then _ else _) => destruct b
      | |- keeps_cache (let '(_, _) := ?p in _) => destruct p
      end ].

Section Cache.
Variables root cwd : string.
Variable toISOString : Z -> string.
Variable Date_parse : string -> Z.
Variable toLocaleString : Z -> string.

Lemma update_keeps_cache (filePath content : string) (append : bool)
    (now : Z) (st : State) :
  resourceCache (fst (obsidian_update root cwd toLocaleString filePath content
                        append now st)) = resourceCache st.
Proof.
  unfold obsidian_update.
  match goal with
  | |- resourceCache (fst (let (_, _) := ?m st in _)) = _ =>
      assert (Hk : keeps_cache m) by keeps; specialize (Hk st);
      destruct (m st) as [st' [t | e]]
  end; done.
Qed.

Lemma create_keeps_cache (filePath content : string) (overwrite : bool)
    (now : Z) (st : State) :
  resourceCache (fst (obsidian_create root cwd toLocaleString filePath content
                        overwrite now st)) = resourceCache st.
Proof.
  unfold obsidian_create.
  match goal with
  | |- resourceCache (fst (let (_, _) := ?m st in _)) = _ =>
      assert (Hk : keeps_cache m) by keeps; specialize (Hk st);
      destruct (m st) as [st' [t | e]]
  end; done.
Qed.

(** A request that is no resource fetch for [uri] leaves the entry of
    [uri] in the cache. *)
Lemma handle_keeps_entry (uri : string) (c : cached) (st : State) (req : request) :
  fetchedUri req <> Some uri ->
  resourceCache st !! uri = Some c ->
  resourceCache (handle root cwd toISOString Date_parse toLocaleString st req) !! uri
  = Some c.
Proof.
  intros Hreq Hc. destruct req; simpl in *.
  - unfold obsidian_list. destruct (getObsidianFiles _ _ _ _ _ _); simpl; [| done].
    rewrite lookup_insert_ne; [done | congruence].
  - unfold obsidian_read.
    match goal with |- context [match ?r with Ok _ => _ | Throw _ => _ end] =>
      destruct r end; simpl; [| done].
    rewrite lookup_insert_ne; [done | congruence].
  - unfold obsidian_search. by destruct (getObsidianFiles _ _ _ _ _ _).
  - unfold obsidian_view.
    destruct (resourceCache st !! ("obsidian://" +:+ filePath +:+ "/read"))
      as [[l | d] |] eqn:E; simpl; try done.
    destruct (readObsidianFile _ _ _ _ _); simpl; [| done].
    rewrite lookup_insert_ne; [done | congruence].
  - unfold obsidian_content_search. by destruct (getObsidianFiles _ _ _ _ _ _).
  - by rewrite create_keeps_cache.
  - by rewrite update_keeps_cache.
Qed.

Lemma run_keeps_entry (uri : string) (c : cached) (reqs : list request) (st : State) :
  Forall (fun req => fetchedUri req <> Some uri) reqs ->
  resourceCache st !! uri = Some c ->
  resourceCache
    (foldl (handle root cwd toISOString Date_parse toLocaleString) st reqs) !! uri
  = Some c.
Proof.
  intros Hreqs. revert st. induction Hreqs as [| req reqs Hreq _ IH]; intros st Hc.
  - done.
  - simpl. apply IH. by apply handle_keeps_entry.
Qed.

(** C9. [obsidian-update] and [obsidian-create] leave [resourceCache] as
    it is, whatever their arguments and outcome. Hence, once an
    [obsidian-read] fetch of [obsidian://p/read] for the path [p] has
    succeeded with a response (the file as read then), after any requests
    that are not another resource fetch of that URI (updates and creations
    of the file among them) the cache still maps the URI to that response,
    and [obsidian-view] of [p] answers with the text built from it, the
    state unchanged. *)
Theorem view_serves_cached_read (p : string) (st0 st1 : State)
    (response : FileData) (reqs : list request) :
  let uri := "obsidian://" +:+ p +:+ "/read" in
  obsidian_read root cwd toISOString uri (Str p) st0 = (st1, Ok response) ->
  Forall (fun req => fetchedUri req <> Some uri) reqs ->
  let st2 := foldl (handle root cwd toISOString Date_parse toLocaleString) st1 reqs in
  (forall filePath content append now st,
     resourceCache (fst (obsidian_update root cwd toLocaleString filePath content
                           append now st)) = resourceCache st) /\
  (forall filePath content overwrite now st,
     resourceCache (fst (obsidian_create root cwd toLocaleString filePath content
                           overwrite now st)) = resourceCache st) /\
  readObsidianFile root cwd toISOString p (vault st0) = Ok response /\
  resourceCache st2 !! uri = Some (CachedFile response) /\
  obsidian_view root cwd toISOString Date_parse toLocaleString p st2 =
    (st2, viewText Date_parse toLocaleString response).
Proof.
  cbv zeta. intros Hread Hreqs.
  split; [apply update_keeps_cache |]. split; [apply create_keeps_cache |].
  unfold obsidian_read in Hread. simpl firstOrSelf in Hread.
  destruct (readObsidianFile root cwd toISOString p (vault st0)) as [d | e];
    [| done].
  injection Hread as <- <-. split; [done |].
  assert (Hc : resourceCache
                 (foldl (handle root cwd toISOString Date_parse toLocaleString)
                    (set_cache (<["obsidian://" +:+ p +:+ "/read" := CachedFile d]>
                                  (resourceCache st0)) st0) reqs)
               !! ("obsidian://" +:+ p +:+ "/read") = Some (CachedFile d)).
  { apply run_keeps_entry; [done |]. simpl. apply lookup_insert_eq. }
  split; [done |]. unfold obsidian_view. by rewrite Hc.
Qed.

End Cache.

(** The note "hello" is fetched, then "world" is appended to it: the
    file reads "hello", newline, "world", and the view still shows
    "hello". *)
Lemma view_serves_cached_read_witness :
  let st1 := fst (obsidian_read "/vault" "/" (fun _ => "t")
                    "obsidian://a.md/read" (Str "a.md") hello_vault) in
  let st2 := handle "/vault" "/" (fun _ => "t") (fun _ => 0) (fun _ => "d")
               st1 (Update "a.md" "world" true 9) in
  fs_readFile "/" (vault st2) "/vault/a.md" = Ok ("hello" +:+ nl +:+ "world") /\
  snd (obsidian_view "/vault" "/" (fun _ => "t") (fun _ => 0) (fun _ => "d")
         "a.md" st2) =
  "File: a.md" +:+ nl +:+ "Size: 5 B" +:+ nl +:+ "Last Modified: d" +:+ nl +:+ nl +:+
  "Markdown Content:" +:+ nl +:+ nl +:+ "hello".
Proof.
  cbv zeta.
  destruct (view_serves_cached_read "/vault" "/" (fun _ => "t") (fun _ => 0)
              (fun _ => "d") "a.md" hello_vault
              (fst (obsidian_read "/vault" "/" (fun _ => "t")
                      "obsidian://a.md/read" (Str "a.md") hello_vault))
              {| content := "hello";
                 fileInfo := {| name := "a.md"; path := "a.md"; isDirectory := false;
                                size := 5; modified := "t" |} |}
              [Update "a.md" "world" true 9])
    as (_ & _ & _ & _ & Hview).
  - by vm_compute.
  - repeat constructor. discriminate.
  - cbv zeta in Hview. cbn [foldl] in Hview. rewrite Hview.
    split; by vm_compute.
Defined.

End CacheProps.

(** ** More on the rate budget *)

Module BudgetProps.
Import Brave BraveRuns.

Lemma checkRateLimit_month (now : Z) (rc : requestCount) :
  month (fst (checkRateLimit now rc)) =
  if 15000 <=? month rc then month rc else month rc + 1.
Proof.
  rewrite BraveProps.checkRateLimit_unfold. cbv zeta.
  unfold RATE_LIMIT_perMonth.
  destruct (15000 <=? month rc); simpl; [apply BraveProps.resetWindow_month | done].
Qed.

Lemma runChecks_app (pre post : list Z) (rc : requestCount) :
  runChecks (pre ++ post) rc = runChecks post (runChecks pre rc).
Proof. unfold runChecks. apply foldl_app. Qed.

Lemma runChecks_month (nows : list Z) (rc : requestCount) :
  month rc <= 15000 ->
  month (runChecks nows rc) = Z.min (month rc + Z.of_nat (length nows)) 15000.
Proof.
  revert rc. induction nows as [| now nows IH]; intros rc Hm.
  - simpl. lia.
  - change (runChecks (now :: nows) rc)
      with (runChecks nows (fst (checkRateLimit now rc))).
    pose proof (checkRateLimit_month now rc) as Hc.
    destruct (Z.leb_spec 15000 (month rc)); rewrite IH; rewrite ?Hc; simpl length; lia.
Qed.

(** The monthly budget over a run of calls. From a monthly count [m] of
    at most 15000, after any number of [checkRateLimit] calls, at any clock
    readings, the count is [m] plus the number of calls, capped at 15000;
    the call that follows [k] earlier ones is allowed exactly when
    [m + k < 15000]. So from 0 the first 15000 calls are allowed and the
    next one throws. *)
Theorem budget_over_calls (pre : list Z) (now : Z) (rc : requestCount) :
  month rc <= 15000 ->
  month (runChecks pre rc) = Z.min (month rc + Z.of_nat (length pre)) 15000 /\
  (snd (checkRateLimit now (runChecks pre rc)) = Ok tt <->
     month rc + Z.of_nat (length pre) < 15000) /\
  (snd (checkRateLimit now (runChecks pre rc)) = Throw "Monthly rate limit exceeded" <->
     15000 <= month rc + Z.of_nat (length pre)).
Proof.
  intros Hm. pose proof (runChecks_month pre rc Hm) as Hrun.
  split; [done |].
  rewrite BraveProps.checkRateLimit_unfold. cbv zeta. unfold RATE_LIMIT_perMonth.
  destruct (Z.leb_spec 15000 (month (runChecks pre rc))); simpl;
    split; split; intros; try done; lia.
Qed.

(** Two units are left: two calls pass, the third throws. *)
Lemma budget_over_calls_witness :
  let rc := {| second := 0; month := 14998; lastReset := 0 |} in
  month (runChecks [100; 2000] rc) = 15000 /\
  snd (checkRateLimit 2100 (runChecks [100] rc)) = Ok tt /\
  snd (checkRateLimit 4000 (runChecks [100; 2000] rc))
  = Throw "Monthly rate limit exceeded".
Proof.
  cbv zeta. split; [| split].
  - apply (budget_over_calls [100; 2000] 0
             {| second := 0; month := 14998; lastReset := 0 |}). simpl. lia.
  - apply (budget_over_calls [100] 2100
             {| second := 0; month := 14998; lastReset := 0 |}); simpl; lia.
  - apply (budget_over_calls [100; 2000] 4000
             {| second := 0; month := 14998; lastReset := 0 |}); simpl; lia.
Defined.

Lemma within_ret {A : Type} (a : A) : within 0 (@ret requestCount A a).
Proof. intros rc. simpl. lia. Qed.

Lemma within_throw {A : Type} (e : string) : within 0 (@throw requestCount A e).
Proof. intros rc. simpl. lia. Qed.

Lemma within_readJson {J : Type} (fetched : result (response J)) :
  within 0 (@readJson requestCount J fetched).
Proof. intros rc. rewrite BraveProps.readJson_state. lia. Qed.

Lemma within_checkRateLimit (now : Z) : within 1 (checkRateLimit now).
Proof.
  intros rc. rewrite checkRateLimit_month. unfold RATE_LIMIT_perMonth.
  destruct (Z.leb_spec 15000 (month rc)); lia.
Qed.

Lemma within_consumeMonthly : within 1 consumeMonthly.
Proof.
  intros rc. rewrite BraveProps.consumeMonthly_unfold. unfold RATE_LIMIT_perMonth.
  destruct (Z.leb_spec 15000 (month rc)); simpl; lia.
Qed.

Lemma within_bind {A B : Type} (a b : Z) (m : M requestCount A)
    (k : A -> M requestCount B) :
  0 <= b -> within a m -> (forall x, within b (k x)) -> within (a + b) (bind m k).
Proof.
  intros Hb Hm Hk rc. unfold bind. specialize (Hm rc).
  destruct (m rc) as [rc1 [x | e]]; simpl in *; [| lia].
  specialize (Hk x rc1). lia.
Qed.

Lemma within_mono {A : Type} (a b : Z) (m : M requestCount A) :
  a <= b -> within a m -> within b m.
Proof. intros Hab Hm rc. specialize (Hm rc). lia. Qed.

Lemma within_webSearch (query : string) (count offset now : Z)
    (fetched : result (response BraveWeb)) :
  within 1 (performWebSearch query count offset now fetched).
Proof.
  unfold performWebSearch.
  apply (within_bind 1 0); [lia | apply within_checkRateLimit |]. intros _.
  apply (within_bind 0 0); [lia | apply within_readJson |]. intros data.
  apply within_ret.
Qed.

Section Handlers.
Variables BravePoiResponse BraveDescription : Type.
Variable formatLocalResults : BravePoiResponse -> BraveDescription -> string.

Lemma within_localSearch (query : string) (count : Z)
    (w : world BravePoiResponse BraveDescription) :
  within 3 (performLocalSearch formatLocalResults query count w).
Proof.
  unfold performLocalSearch.
  apply (within_bind 1 2); [lia | apply within_checkRateLimit |]. intros _.
  apply (within_bind 0 2); [lia | apply within_readJson |]. intros webData.
  destruct (decide (locationIds webData = [])).
  - apply (within_mono 1); [lia | apply within_webSearch].
  - apply (within_bind 1 1); [lia | |].
    { apply (within_bind 1 0); [lia | apply within_consumeMonthly |]. intros _.
      apply within_readJson. }
    intros poisData.
    apply (within_bind 1 0); [lia | | intros d; apply within_ret].
    apply (within_bind 1 0); [lia | apply within_consumeMonthly |]. intros _.
    apply within_readJson.
Qed.

(** The budget under the tools. Whatever the key, the arguments and the
    answers of the network, a [brave_web_search] call takes at most one
    unit of the monthly budget and a [brave_local_search] call at most
    three; neither gives a unit back, and neither takes the monthly count
    past 15000 if it was not past it before. *)
Theorem tools_within_budget (key : option string) (query : string)
    (count offset now : Z) (fetched : result (response BraveWeb))
    (w : world BravePoiResponse BraveDescription) (rc : requestCount) :
  let web := fst (brave_web_search key query count offset now fetched rc) in
  let loc := fst (brave_local_search formatLocalResults key query count w rc) in
  (month rc <= month web <= month rc + 1) /\
  (month rc <= month loc <= month rc + 3) /\
  (month rc <= 15000 -> month web <= 15000 /\ month loc <= 15000).
Proof.
  cbv zeta. unfold brave_web_search, brave_local_search.
  destruct (keySet key).
  - pose proof (within_webSearch query count offset now fetched rc) as Hw.
    pose proof (within_localSearch query count w rc) as Hl.
    unfold RATE_LIMIT_perMonth in *.
    destruct (performWebSearch _ _ _ _ _ rc) as [rc1 [t | e]];
      destruct (performLocalSearch _ _ _ _ rc) as [rc2 [t' | e']];
      simpl in *; lia.
  - simpl. lia.
Qed.

End Handlers.

(** From 14999 a local search that finds a place stops at 15000. *)
Lemma tools_within_budget_witness :
  month (fst (brave_local_search (fun (_ _ : unit) => "places") (Some "key")
                "pizza" 5 BraveExamples.all_ok
                {| second := 0; month := 14999; lastReset := 0 |})) <= 15000.
Proof.
  apply (tools_within_budget unit unit (fun _ _ => "places") (Some "key") "pizza" 5 0 0
           (Ok BraveExamples.web_with_place) BraveExamples.all_ok
           {| second := 0; month := 14999; lastReset := 0 |}).
  simpl. lia.
Defined.

Section Refusals.
Variables BravePoiResponse BraveDescription : Type.
Variable formatLocalResults : BravePoiResponse -> BraveDescription -> string.

(** The refusals of the tools. Without a key (unset or empty) both tools
    answer with the missing-key error and leave the counters alone. With a
    key and the monthly count at 15000 or more, both answer with the
    rate-limit error whatever the network would have answered; the monthly
    count stays, and the only change is the window reset of
    [checkRateLimit]. *)
Theorem tools_refuse (key : option string) (query : string)
    (count offset now : Z) (fetched : result (response BraveWeb))
    (w : world BravePoiResponse BraveDescription) (rc : requestCount) :
  (keySet key = false ->
     brave_web_search key query count offset now fetched rc = (rc, keyMissing) /\
     brave_local_search formatLocalResults key query count w rc = (rc, keyMissing)) /\
  (keySet key = true -> 15000 <= month rc ->
     brave_web_search key query count offset now fetched rc
       = (resetWindow now rc, budgetExceeded) /\
     brave_local_search formatLocalResults key query count w rc
       = (resetWindow (now1 w) rc, budgetExceeded)).
Proof.
  unfold brave_web_search, brave_local_search. split.
  - intros ->. done.
  - intros -> Hm. unfold performWebSearch, performLocalSearch.
    assert (Hc : forall t, checkRateLimit t rc =
                   (resetWindow t rc, Throw "Monthly rate limit exceeded")).
    { intros t. rewrite BraveProps.checkRateLimit_unfold. cbv zeta.
      unfold RATE_LIMIT_perMonth. destruct (Z.leb_spec 15000 (month rc)); [done | lia]. }
    by rewrite !(bind_throw _ _ _ _ _ (Hc _)).
Qed.

(** A web search is charged before the request goes out. With a key and
    budget left, a [brave_web_search] call takes exactly one unit and
    counts once in the per-second window, whether the request fails, is
    answered with an error status or an unreadable body, or succeeds; it
    reports no error exactly when the answer has an ok status and a
    readable body. *)
Theorem web_search_charged (key : option string) (query : string)
    (count offset now : Z) (fetched : result (response BraveWeb))
    (rc : requestCount) :
  keySet key = true -> month rc < 15000 ->
  let out := brave_web_search key query count offset now fetched rc in
  month (fst out) = month rc + 1 /\
  second (fst out) = second (resetWindow now rc) + 1 /\
  lastReset (fst out) = lastReset (resetWindow now rc) /\
  (isError (snd out) = false <->
     exists r data, fetched = Ok r /\ ok r = true /\ json r = Ok data) /\
  (forall r, fetched = Ok r -> ok r = false ->
     content_text (snd out) = "Error: " +:+ apiError r).
Proof.
  intros Hkey Hm. cbv zeta. unfold brave_web_search. rewrite Hkey.
  unfold performWebSearch.
  erewrite bind_ok; [| by apply BraveProps.checkRateLimit_allowed].
  set (rc1 := {| second := _; month := _; lastReset := _ |}).
  unfold bind, readJson, bind, lift, throw.
  destruct fetched as [r | e]; simpl.
  - destruct (ok r) eqn:Hok; simpl.
    + destruct (json r) as [data | e] eqn:Hj; simpl;
        (split; [done |]); (split; [done |]); (split; [done |]); split.
      * split; [eauto | done].
      * intros r' [= <-] ?; congruence.
      * split; [done |]. intros (r' & data & [= <-] & _ & Hj').
        rewrite Hj in Hj'. done.
      * intros r' [= <-] ?; congruence.
    + (split; [done |]); (split; [done |]); (split; [done |]); split.
      * split; [done |]. intros (r' & data & [= <-] & Hok' & _). congruence.
      * by intros r' [= <-] _.
  - (split; [done |]); (split; [done |]); (split; [done |]); split.
    + split; [done |]. by intros (r' & data & ? & _).
    + done.
Qed.

(** A search charged though the server answered 500. *)
Lemma web_search_charged_witness :
  let rc := {| second := 0; month := 3; lastReset := 0 |} in
  let down := {| ok := false; status := 500; statusText := "Oops";
                 text := "down"; json := Throw "no body" |} in
  month (fst (brave_web_search (Some "key") "rocq" 10 0 500 (Ok down) rc)) = 4 /\
  content_text (snd (brave_web_search (Some "key") "rocq" 10 0 500 (Ok down) rc))
  = "Error: Brave API error: 500 Oops" +:+ nl +:+ "down".
Proof.
  cbv zeta.
  destruct (web_search_charged (Some "key") "rocq" 10 0 500
              (Ok {| ok := false; status := 500; statusText := "Oops";
                     text := "down"; json := Throw "no body" |})
              {| second := 0; month := 3; lastReset := 0 |})
    as (Hm & _ & _ & _ & Ht); [done | simpl; lia |].
  split; [exact Hm |]. by rewrite (Ht _ eq_refl eq_refl).
Defined.

(** The fallback of the local search. With a key and budget left, when
    the first web query is answered but names no location, the call goes
    on exactly as a [brave_web_search] call for the same query and count,
    with offset 0, made right after the first [checkRateLimit]: it is
    charged a second time and answers with the web results. *)
Theorem local_search_falls_back (key : option string) (query : string)
    (count : Z) (w : world BravePoiResponse BraveDescription)
    (rc : requestCount) (r : response BraveWeb) (data : BraveWeb) :
  keySet key = true -> month rc < 15000 ->
  webResponse w = Ok r -> ok r = true -> json r = Ok data ->
  locationIds data = [] ->
  brave_local_search formatLocalResults key query count w rc =
  brave_web_search key query count 0 (now2 w) (fallbackResponse w)
    (fst (checkRateLimit (now1 w) rc)).
Proof.
  intros Hkey Hm Hweb Hok Hj Hids.
  unfold brave_local_search, brave_web_search. rewrite Hkey.
  unfold performLocalSearch.
  rewrite (BraveProps.checkRateLimit_allowed _ _ Hm). simpl fst.
  erewrite bind_ok; [| by apply BraveProps.checkRateLimit_allowed].
  erewrite bind_ok; [| by apply (BraveProps.readJson_ok _ r data _ Hweb)].
  by rewrite decide_True.
Qed.

End Refusals.

(** A local search without a place: two units, and the web results. *)
Lemma local_search_falls_back_witness :
  brave_local_search (fun _ _ => "places") (Some "key") "rocq" 5
    world_without_place {| second := 0; month := 7; lastReset := 0 |} =
  ({| second := 1; month := 9; lastReset := 1300 |},
   {| content_text := "Title: Rocq" +:+ nl +:+ "Description: " +:+ nl +:+
                      "URL: https://rocq-prover.org";
      isError := false |}).
Proof.
  rewrite (local_search_falls_back unit unit (fun _ _ => "places") (Some "key")
             "rocq" 5 world_without_place
             {| second := 0; month := 7; lastReset := 0 |} no_place
             {| web_results := Some [ {| title := Some "Rocq";
                                         description := None;
                                         url := Some "https://rocq-prover.org" |} ];
                locations_results := None |});
    reflexivity.
Defined.

(** Without a key nothing is counted. *)
Lemma tools_refuse_witness :
  brave_web_search None "rocq" 10 0 500 (Ok no_place)
    {| second := 0; month := 3; lastReset := 0 |} =
  ({| second := 0; month := 3; lastReset := 0 |}, keyMissing) /\
  brave_web_search (Some "key") "rocq" 10 0 5000 (Ok no_place)
    {| second := 4; month := 15000; lastReset := 0 |} =
  ({| second := 0; month := 15000; lastReset := 5000 |}, budgetExceeded).
Proof.
  split.
  - by apply (tools_refuse unit unit (fun _ _ => "places") None "rocq" 10 0 500
                (Ok no_place) world_without_place
                {| second := 0; month := 3; lastReset := 0 |}).
  - apply (tools_refuse unit unit (fun _ _ => "places") (Some "key") "rocq" 10 0
             5000 (Ok no_place) world_without_place
             {| second := 4; month := 15000; lastReset := 0 |}); [done |].
    simpl. lia.
Defined.

End BudgetProps.

(** ** Paths in normal form and the vault guard *)

Module PathProps.
Import path Obsidian VaultPaths.
#[local] Arguments String.append !s1 s2 : simpl nomatch.

Lemma app_empty_r (s : string) : s +:+ "" = s.
Proof. induction s; simpl; congruence. Qed.

Lemma app_assoc_s (a b c : string) : (a +:+ b) +:+ c = a +:+ (b +:+ c).
Proof. induction a; simpl; congruence. Qed.

Lemma srev_app_spec (s t : string) : String.rev_app s t = String.rev s +:+ t.
Proof.
  revert t. induction s as [| c s IH]; intros t; [done |].
  unfold String.rev. simpl. rewrite !IH. rewrite app_assoc_s. done.
Qed.

Lemma srev_cons (c : ascii) (s : string) :
  String.rev (String c s) = String.rev s +:+ String c "".
Proof. unfold String.rev at 1. simpl. apply srev_app_spec. Qed.

Lemma srev_app_distr (s t : string) :
  String.rev (s +:+ t) = String.rev t +:+ String.rev s.
Proof.
  induction s as [| c s IH]; simpl.
  - by rewrite app_empty_r.
  - rewrite !srev_cons, IH. apply app_assoc_s.
Qed.

Lemma srev_involutive (s : string) : String.rev (String.rev s) = s.
Proof.
  induction s as [| c s IH]; [done |].
  rewrite srev_cons, srev_app_distr, IH. done.
Qed.

Lemma split_nonempty (c : ascii) (s : string) : split c s <> [].
Proof.
  induction s as [| a s IH]; simpl; [done |].
  destruct (Ascii.eqb a c); [done |]. by destruct (split c s).
Qed.

Lemma split_app_sep (c : ascii) (a b : string) :
  split c (a +:+ String c b) = split c a ++ split c b.
Proof.
  induction a as [| x a IH]; simpl.
  - by rewrite Ascii.eqb_refl.
  - destruct (Ascii.eqb x c); [by rewrite IH |].
    rewrite IH. pose proof (split_nonempty c a).
    by destruct (split c a).
Qed.

Lemma split_noSlash (s : string) : noSlash s = true -> split slash s = [s].
Proof.
  induction s as [| a s IH]; simpl; [done |].
  intros [Ha Hs]%andb_true_iff. apply negb_true_iff in Ha. rewrite Ha.
  by rewrite IH.
Qed.

Lemma split_elems_noSlash (s : string) : Forall (fun x => noSlash x = true) (split slash s).
Proof.
  induction s as [| a s IH]; simpl; [by repeat constructor |].
  destruct (Ascii.eqb a slash) eqn:E; [by constructor |].
  pose proof (split_nonempty slash s). destruct (split slash s) as [| x l]; [done |].
  inversion IH; subst. constructor; [| done]. simpl. by rewrite E.
Qed.

Lemma join_cons (sep x : string) (l : list string) :
  l <> [] -> Array_join sep (x :: l) = x +:+ sep +:+ Array_join sep l.
Proof. by destruct l. Qed.

Lemma split_join (segs : list string) :
  segs <> [] -> Forall (fun x => noSlash x = true) segs ->
  split slash (Array_join "/" segs) = segs.
Proof.
  induction segs as [| x l IH]; [done |]. intros _ Hall.
  inversion Hall as [| ? ? Hx Hl]; subst.
  destruct l as [| y l'].
  - simpl. by apply split_noSlash.
  - rewrite join_cons by done. change ("/" +:+ ?t) with (String slash t).
    rewrite split_app_sep, split_noSlash by done. rewrite IH by done. done.
Qed.

Lemma join_split (s : string) : Array_join "/" (split slash s) = s.
Proof.
  induction s as [| a s IH]; [done |]. simpl.
  destruct (Ascii.eqb_spec a slash) as [-> | Hne].
  - pose proof (split_nonempty slash s). rewrite join_cons by done.
    simpl. by rewrite IH.
  - pose proof (split_nonempty slash s).
    destruct (split slash s) as [| x l]; [done |].
    destruct l; simpl in *; by rewrite <- IH.
Qed.

Lemma properSegment_inv (seg : string) :
  properSegment seg = true <-> noSlash seg = true /\ kept seg = true.
Proof.
  unfold properSegment, kept.
  destruct (noSlash seg), (isSkipped seg), (isDotDot seg); simpl; tauto.
Qed.

Lemma properSegment_kept seg : properSegment seg = true -> kept seg = true.
Proof. by intros [_ ?]%properSegment_inv. Qed.

Lemma normalizeSegments_kept (b : bool) (res segs : list string) :
  Forall (fun x => kept x = true) segs ->
  normalizeSegments b res segs = rev res ++ segs.
Proof.
  intros H. revert res. induction H as [| x l Hx Hl IH]; intros res; simpl.
  - by rewrite app_nil_r.
  - apply andb_true_iff in Hx as [Hs Hd]. apply negb_true_iff in Hs, Hd.
    rewrite Hs, Hd, IH. simpl. by rewrite <- app_assoc.
Qed.

Lemma normalizeSegments_app (b : bool) (s1 s2 res : list string) :
  normalizeSegments b res (s1 ++ s2) =
  normalizeSegments b (rev (normalizeSegments b res s1)) s2.
Proof.
  revert res. induction s1 as [| x l IH]; intros res; simpl.
  - by rewrite rev_involutive.
  - destruct (isSkipped x); [apply IH |].
    destruct (isDotDot x); [| apply IH].
    destruct res as [| last res']; [apply IH |].
    destruct (isDotDot last); apply IH.
Qed.

(** Without [..] among the segments, the fold only drops the skipped ones. *)
Lemma normalizeSegments_no_dotdot (b : bool) (res segs : list string) :
  Forall (fun x => isDotDot x = false) segs ->
  normalizeSegments b res segs = rev res ++ filter (fun x => isSkipped x = false) segs.
Proof.
  intros H. revert res. induction H as [| x l Hx Hl IH]; intros res; simpl.
  - by rewrite app_nil_r.
  - destruct (isSkipped x) eqn:Hs.
    + rewrite filter_cons_False by (rewrite Hs; done). apply IH.
    + rewrite filter_cons_True by done. rewrite Hx, IH. simpl. by rewrite <- app_assoc.
Qed.

(** What the fold keeps, from a stack of kept segments, is kept. *)
Lemma normalizeSegments_out (res segs : list string) :
  Forall (fun x => kept x = true) res ->
  Forall (fun x => kept x = true) (normalizeSegments false res segs).
Proof.
  revert res. induction segs as [| x l IH]; intros res Hres; simpl.
  - by apply Forall_rev.
  - destruct (isSkipped x) eqn:Hs; [by apply IH |].
    destruct (isDotDot x) eqn:Hd.
    + destruct res as [| last res']; [by apply IH |].
      inversion Hres; subst.
      destruct (isDotDot last); by apply IH.
    + apply IH. constructor; [| done]. unfold kept. by rewrite Hs, Hd.
Qed.

Lemma normalizeSegments_noSlash (b : bool) (res segs : list string) :
  Forall (fun x => noSlash x = true) res ->
  Forall (fun x => noSlash x = true) segs ->
  Forall (fun x => noSlash x = true) (normalizeSegments b res segs).
Proof.
  intros Hres Hsegs. revert res Hres.
  induction Hsegs as [| x l Hx Hl IH]; intros res Hres; simpl.
  - by apply Forall_rev.
  - destruct (isSkipped x); [by apply IH |].
    destruct (isDotDot x).
    + destruct res as [| last res'].
      * apply IH. destruct b; by repeat constructor.
      * inversion Hres; subst. destruct (isDotDot last); [| by apply IH].
        apply IH. destruct b; [by constructor | done].
    + apply IH. by constructor.
Qed.

Lemma dropLeading_decomp (t : string) :
  exists k, t = slashes k +:+ dropLeadingSlashes t.
Proof.
  induction t as [| c t [k IH]]; [by exists 0%nat |]. simpl.
  destruct (Ascii.eqb_spec c slash) as [-> | Hne].
  - exists (S k). simpl. by rewrite <- IH.
  - by exists 0%nat.
Qed.

Lemma slashes_snoc (k : nat) : slashes k +:+ "/" = String slash (slashes k).
Proof. induction k; simpl; [done |]. by rewrite IHk. Qed.

Lemma srev_slashes (k : nat) : String.rev (slashes k) = slashes k.
Proof.
  induction k as [| k IH]; [done |]. simpl. rewrite srev_cons, IH.
  apply slashes_snoc.
Qed.

Lemma dropTrailing_decomp (s : string) :
  exists k, s = dropTrailingSlashes s +:+ slashes k.
Proof.
  unfold dropTrailingSlashes.
  destruct (dropLeading_decomp (String.rev s)) as [k Hk]. exists k.
  rewrite <- (srev_involutive s) at 1. rewrite Hk at 1.
  by rewrite srev_app_distr, srev_slashes.
Qed.

Lemma split_dropLeading (c : string) (x : string) :
  x ∈ split slash (dropLeadingSlashes c) -> x ∈ split slash c.
Proof.
  induction c as [| a c IH]; [done |]. simpl.
  destruct (Ascii.eqb a slash) eqn:E.
  - intros H. right. by apply IH.
  - simpl. by rewrite E.
Qed.

Lemma split_app_slashes (u : string) (k : nat) (x : string) :
  x ∈ split slash u -> x ∈ split slash (u +:+ slashes k).
Proof.
  destruct k as [| k]; simpl.
  - by rewrite app_empty_r.
  - rewrite split_app_sep. intros H. apply elem_of_app. by left.
Qed.

Lemma split_dropTrailing (s : string) (x : string) :
  x ∈ split slash (dropTrailingSlashes s) -> x ∈ split slash s.
Proof.
  destruct (dropTrailing_decomp s) as [k Hk]. intros H.
  rewrite Hk. by apply split_app_slashes.
Qed.

Lemma split_stripSlashes (c x : string) :
  x ∈ split slash (stripSlashes c) -> x ∈ split slash c.
Proof.
  unfold stripSlashes. intros H. by apply split_dropLeading, split_dropTrailing.
Qed.

Lemma join_app (sep : string) (l1 l2 : list string) :
  l1 <> [] -> l2 <> [] ->
  Array_join sep (l1 ++ l2) = Array_join sep l1 +:+ sep +:+ Array_join sep l2.
Proof.
  induction l1 as [| x l IH]; [done |]. intros _ H2.
  destruct l as [| y l'].
  - simpl. by destruct l2.
  - change ((x :: y :: l') ++ l2) with (x :: (y :: l') ++ l2).
    rewrite join_cons by done. rewrite IH by done.
    rewrite (join_cons sep x (y :: l')) by done.
    by rewrite !app_assoc_s.
Qed.

Lemma kept_nonempty (x : string) : kept x = true -> x <> "".
Proof. intros H ->. done. Qed.

Lemma join_kept_nonempty (segs : list string) :
  segs <> [] -> Forall (fun x => kept x = true) segs -> Array_join "/" segs <> "".
Proof.
  destruct segs as [| x l]; [done |]. intros _ H.
  inversion H as [| ? ? Hx _]; subst. apply kept_nonempty in Hx.
  destruct l; simpl; [done |]. destruct x; [done |]. done.
Qed.

Lemma split_absolute (t : string) : split slash (String slash t) = "" :: split slash t.
Proof. done. Qed.

Lemma isAbsolute_slash (t : string) : isAbsolute (String slash t) = true.
Proof.
  unfold isAbsolute, startsWith. simpl.
  destruct (ascii_dec "/" slash); [by destruct t | done].
Qed.

(** The shape of the result of [path.normalize] for an absolute path. *)
Lemma normalize_shape (t : string) :
  let segs := normalizeSegments false [] ("" :: split slash t) in
  normalize (String slash t) =
  if decide (segs = []) then "/"
  else absolutePath segs +:+ (if endsWithSlash (String slash t) then "/" else "").
Proof.
  cbv zeta. set (segs := normalizeSegments false [] ("" :: split slash t)).
  assert (Hkept : Forall (fun x => kept x = true) segs)
    by (by apply normalizeSegments_out).
  unfold normalize. simpl String.eqb. unfold normalizeString.
  rewrite isAbsolute_slash. simpl negb.
  rewrite split_absolute. fold segs.
  destruct (decide (segs = [])) as [-> | Hne]; [done |].
  pose proof (join_kept_nonempty segs Hne Hkept) as Hq.
  apply String.eqb_neq in Hq. rewrite Hq. unfold absolutePath.
  destruct (endsWithSlash (String slash t)); simpl; by rewrite ?app_empty_r.
Qed.

Section Keys.
Variable cwd : string.

(** The segments a normalized absolute path is made of. *)
Lemma key_absolutePath (segs : list string) :
  Forall (fun x => properSegment x = true) segs ->
  key cwd (absolutePath segs) = segs /\
  key cwd (absolutePath segs +:+ "/") = segs.
Proof.
  intros H.
  assert (Hk : Forall (fun x => kept x = true) segs)
    by (eapply Forall_impl; [exact H | apply properSegment_kept]).
  assert (Hn : Forall (fun x => noSlash x = true) segs).
  { eapply Forall_impl; [exact H |]. by intros x [? _]%properSegment_inv. }
  unfold key, resolveSegments, absolutePath.
  change ("/" +:+ ?t) with (String slash t).
  change (String slash ?t +:+ ?u) with (String slash (t +:+ u)).
  rewrite !isAbsolute_slash, !split_absolute.
  destruct segs as [| x l].
  - by vm_compute.
  - rewrite split_app_sep, !split_join by done.
    change (split "/"%char "") with [""].
    change (normalizeSegments false [] ("" :: ?s)) with (normalizeSegments false [] s).
    rewrite normalizeSegments_app, !normalizeSegments_kept by done.
    change (normalizeSegments false ?r [""]) with (rev r).
    by rewrite rev_involutive.
Qed.

(** The segments of the result of [path.normalize], for an absolute
    path, and the shape of the result. *)
Lemma normalize_absolute (t : string) :
  let segs := normalizeSegments false [] ("" :: split slash t) in
  key cwd (String slash t) = segs /\
  key cwd (normalize (String slash t)) = segs /\
  Forall (fun x => kept x = true) segs /\
  Forall (fun x => noSlash x = true) segs /\
  exists tail, (tail = "" \/ tail = "/") /\
    normalize (String slash t) =
    if decide (segs = []) then "/" else absolutePath segs +:+ tail.
Proof.
  cbv zeta. set (segs := normalizeSegments false [] ("" :: split slash t)).
  assert (Hkept : Forall (fun x => kept x = true) segs)
    by (by apply normalizeSegments_out).
  assert (Hns : Forall (fun x => noSlash x = true) segs).
  { apply normalizeSegments_noSlash; [done |].
    constructor; [done | apply split_elems_noSlash]. }
  assert (Hn : exists tail, (tail = "" \/ tail = "/") /\
            normalize (String slash t) =
            if decide (segs = []) then "/" else absolutePath segs +:+ tail).
  { exists (if endsWithSlash (String slash t) then "/" else "").
    split; [destruct (endsWithSlash _); tauto | apply normalize_shape]. }
  split.
  { unfold key, resolveSegments. by rewrite isAbsolute_slash, split_absolute. }
  split; [| done].
  destruct Hn as (tail & Htail & ->).
  destruct (decide (segs = [])) as [E | Hne]; [by rewrite E |].
  assert (Hp : Forall (fun x => properSegment x = true) segs).
  { apply Forall_forall. intros x Hx. apply properSegment_inv.
    rewrite Forall_forall in Hkept, Hns. split; auto. }
  destruct (key_absolutePath segs Hp) as [H1 H2].
  destruct Htail as [-> | ->]; [by rewrite app_empty_r | done].
Qed.

End Keys.

Lemma join_two (root np : string) :
  root <> "" ->
  path.join [root; np] =
  normalize (if decide (np = "") then root else root +:+ "/" +:+ np).
Proof.
  intros Hr. unfold path.join.
  rewrite filter_cons_True by done.
  destruct (decide (np = "")) as [-> | Hn].
  - by rewrite filter_cons_False by (intros H; by apply H).
  - by rewrite filter_cons_True by done.
Qed.

Section Join.
Variable cwd : string.

(** The segments of [path.join(root, np)] for an absolute [root]: those of
    [root], then the fold over the segments of [np]. *)
Lemma key_join (t np : string) :
  key cwd (path.join [String slash t; np]) =
  normalizeSegments false (rev (key cwd (String slash t))) (split slash np).
Proof.
  rewrite join_two by done.
  destruct (normalize_absolute cwd t) as (Hk & _).
  destruct (decide (np = "")) as [-> | Hn].
  - destruct (normalize_absolute cwd t) as (_ & -> & _). rewrite Hk.
    change (split slash "") with [""].
    change (normalizeSegments false ?r [""]) with (rev r).
    by rewrite rev_involutive.
  - change (String slash t +:+ "/" +:+ np) with (String slash (t +:+ String slash np)).
    destruct (normalize_absolute cwd (t +:+ String slash np)) as (_ & -> & _).
    rewrite split_app_sep, Hk.
    change ("" :: split slash t ++ split slash np)
      with (("" :: split slash t) ++ split slash np).
    by rewrite normalizeSegments_app.
Qed.

End Join.

Lemma prefix_cons_inv (a b : ascii) (s t : string) :
  String.prefix (String a s) (String b t) = true ->
  a = b /\ String.prefix s t = true.
Proof. simpl. by destruct (ascii_dec a b). Qed.

Lemma app_cons (c : ascii) (s t : string) : String c s +:+ t = String c (s +:+ t).
Proof. done. Qed.

Lemma noSlash_cons (c : ascii) (s : string) :
  noSlash (String c s) = true -> c <> slash /\ noSlash s = true.
Proof.
  simpl. intros [Hc ?]%andb_true_iff. split; [| done].
  intros ->. by rewrite Ascii.eqb_refl in Hc.
Qed.

(** [a] followed by a slash opens [b] followed by [Y], both without a
    slash inside: then [a] is [b] and the slash opens [Y]. *)
Lemma segment_align (a b X Y : string) :
  noSlash a = true -> noSlash b = true ->
  (Y = "" \/ exists Y', Y = String slash Y') ->
  String.prefix (a +:+ String slash X) (b +:+ Y) = true ->
  a = b /\ String.prefix (String slash X) Y = true.
Proof.
  revert b. induction a as [| c a IH]; intros b Ha Hb HY H.
  - destruct b as [| d b]; [done |].
    apply noSlash_cons in Hb as [Hd _].
    change (String.prefix (String slash X) (String d (b +:+ Y)) = true) in H.
    apply prefix_cons_inv in H as [<- _]. done.
  - apply noSlash_cons in Ha as [Hc Ha].
    destruct b as [| d b].
    + destruct HY as [-> | [Y' ->]]; [done |].
      change (String.prefix (String c (a +:+ String slash X)) (String slash Y') = true) in H.
      apply prefix_cons_inv in H as [-> _]. done.
    + apply noSlash_cons in Hb as [_ Hb].
      rewrite !app_cons in H. apply prefix_cons_inv in H as [<- H].
      destruct (IH b Ha Hb HY H) as [-> ?]. done.
Qed.

Lemma prefix_empty_inv (s : string) : String.prefix s "" = true -> s = "".
Proof. by destruct s. Qed.

(** A path with a closing slash opens another one, as strings: then its
    segments open the segments of the other. *)
Lemma prefix_segments (A B : list string) (tail : string) :
  Forall (fun x => noSlash x = true) A -> Forall (fun x => noSlash x = true) B ->
  Forall (fun x => x <> "") A ->
  (tail = "" \/ tail = "/") ->
  String.prefix (Array_join "/" A +:+ "/") (Array_join "/" B +:+ tail) = true ->
  A `prefix_of` B.
Proof.
  intros HA. revert B. induction HA as [| a A' Ha HA' IH]; intros B HB Hne Htail H.
  - apply prefix_nil.
  - inversion Hne as [| ? ? Hane Hne']; subst.
    assert (Htl : tail = "" \/ exists Y', tail = String slash Y')
      by (destruct Htail as [-> | ->]; eauto).
    assert (HjA : Array_join "/" (a :: A') +:+ "/" =
                  a +:+ String slash
                    (if decide (A' = []) then "" else Array_join "/" A' +:+ "/")).
    { destruct (decide (A' = [])) as [-> | Hn]; [done |].
      rewrite join_cons by done. by rewrite !app_assoc_s. }
    rewrite HjA in H. clear HjA.
    destruct B as [| b B'].
    + exfalso. change (Array_join "/" [] +:+ tail) with ("" +:+ tail) in H.
      apply segment_align in H as [-> _]; done.
    + inversion HB as [| ? ? Hb HB']; subst.
      assert (HjB : Array_join "/" (b :: B') +:+ tail =
                    b +:+ (if decide (B' = []) then tail
                           else String slash (Array_join "/" B' +:+ tail))).
      { destruct (decide (B' = [])) as [-> | Hn]; [done |].
        rewrite join_cons by done. by rewrite !app_assoc_s. }
      rewrite HjB in H. clear HjB.
      apply segment_align in H as [-> Hp]; [| done | done |].
      2:{ destruct (decide (B' = [])); eauto. }
      destruct (decide (A' = [])) as [-> | Hn].
      { apply prefix_cons, prefix_nil. }
      apply prefix_cons.
      destruct (decide (B' = [])) as [-> | Hn'].
      * exfalso. destruct Htail as [-> | ->]; [done |].
        apply prefix_cons_inv in Hp as [_ Hp].
        apply prefix_empty_inv in Hp. destruct A' as [| x l]; [done |].
        destruct (Array_join "/" (x :: l)); done.
      * apply prefix_cons_inv in Hp as [_ Hp].
        by apply IH.
Qed.

Lemma dropLeading_slash (c : string) :
  dropLeadingSlashes (String slash c) = dropLeadingSlashes c.
Proof. done. Qed.

Lemma dropTrailing_snoc (u : string) :
  dropTrailingSlashes (u +:+ "/") = dropTrailingSlashes u.
Proof. unfold dropTrailingSlashes. by rewrite srev_app_distr. Qed.

Lemma dropLeading_app (c t : string) :
  dropLeadingSlashes c <> "" ->
  dropLeadingSlashes (c +:+ t) = dropLeadingSlashes c +:+ t.
Proof.
  induction c as [| a c IH]; [done |]. simpl.
  destruct (Ascii.eqb a slash); [apply IH | done].
Qed.

Lemma dropLeading_app_empty (c t : string) :
  dropLeadingSlashes c = "" ->
  dropLeadingSlashes (c +:+ t) = dropLeadingSlashes t.
Proof.
  induction c as [| a c IH]; [done |]. simpl.
  destruct (Ascii.eqb a slash); [apply IH | done].
Qed.

Lemma stripSlashes_slash_l (c : string) : stripSlashes (String slash c) = stripSlashes c.
Proof. done. Qed.

Lemma stripSlashes_slash_r (c : string) : stripSlashes (c +:+ "/") = stripSlashes c.
Proof.
  unfold stripSlashes. destruct (decide (dropLeadingSlashes c = "")) as [E | E].
  - by rewrite dropLeading_app_empty, E.
  - by rewrite dropLeading_app, dropTrailing_snoc.
Qed.

Lemma stripSlashes_slashes (j k : nat) (c : string) :
  stripSlashes (slashes j +:+ c +:+ slashes k) = stripSlashes c.
Proof.
  induction j as [| j IHj]; simpl.
  - induction k as [| k IHk]; simpl; [by rewrite app_empty_r |].
    rewrite <- slashes_snoc, <- app_assoc_s, stripSlashes_slash_r. apply IHk.
  - rewrite stripSlashes_slash_l. apply IHj.
Qed.

Lemma startsWith_cons (a : ascii) (t : string) :
  startsWith (String a t) "/" = bool_decide (a = slash).
Proof.
  unfold startsWith. destruct (String.prefix "/" (String a t)) eqn:E.
  - apply prefix_cons_inv in E as [<- _]. done.
  - case_bool_decide as Ha; [| done]. subst a. rewrite <- E.
    change (String.prefix (String slash "") (String slash t)) with
      (match ascii_dec slash slash with left _ => String.prefix "" t | right _ => false end).
    destruct (ascii_dec slash slash); [by destruct t | done].
Qed.

Lemma startsWith_dropLeading (t : string) :
  startsWith (dropLeadingSlashes t) "/" = false.
Proof.
  induction t as [| a t IH]; [done |]. simpl.
  destruct (Ascii.eqb_spec a slash) as [-> | Hne]; [done |].
  rewrite startsWith_cons. by apply bool_decide_eq_false.
Qed.

Lemma endsWithSlash_dropTrailing (s : string) :
  endsWithSlash (dropTrailingSlashes s) = false.
Proof.
  unfold endsWithSlash, dropTrailingSlashes. rewrite srev_involutive.
  apply startsWith_dropLeading.
Qed.

Lemma startsWith_app (a b : string) :
  a <> "" -> startsWith (a +:+ b) "/" = startsWith a "/".
Proof.
  destruct a as [| c a]; [done |]. intros _.
  change (String c a +:+ b) with (String c (a +:+ b)). by rewrite !startsWith_cons.
Qed.

Lemma srev_nonempty (s : string) : s <> "" -> String.rev s <> "".
Proof.
  destruct s as [| c s]; [done |]. intros _. rewrite srev_cons.
  by destruct (String.rev s).
Qed.

Lemma endsWithSlash_app (a b : string) :
  b <> "" -> endsWithSlash (a +:+ b) = endsWithSlash b.
Proof.
  intros Hb. unfold endsWithSlash. rewrite srev_app_distr.
  apply startsWith_app. by apply srev_nonempty.
Qed.

Lemma stripSlashes_no_closing_slash (c : string) :
  endsWithSlash (stripSlashes c) = false.
Proof. apply endsWithSlash_dropTrailing. Qed.

Lemma noSlash_app (a b : string) :
  noSlash (a +:+ b) = noSlash a && noSlash b.
Proof. induction a as [| c a IH]; simpl; [done |]. by rewrite IH, andb_assoc. Qed.

Lemma noSlash_srev (s : string) : noSlash (String.rev s) = noSlash s.
Proof.
  induction s as [| c s IH]; [done |]. rewrite srev_cons, noSlash_app, IH. simpl.
  rewrite andb_true_r. apply andb_comm.
Qed.

Lemma noSlash_startsWith (s : string) : noSlash s = true -> startsWith s "/" = false.
Proof.
  destruct s as [| c s]; [done |]. intros [Hc _]%noSlash_cons.
  rewrite startsWith_cons. by apply bool_decide_eq_false.
Qed.

Lemma endsWithSlash_noSlash (s : string) : noSlash s = true -> endsWithSlash s = false.
Proof. intros H. apply noSlash_startsWith. by rewrite noSlash_srev. Qed.

Lemma endsWithSlash_absolutePath (segs : list string) :
  segs <> [] -> Forall (fun x => properSegment x = true) segs ->
  endsWithSlash (absolutePath segs) = false.
Proof.
  intros Hne H. destruct (exists_last Hne) as (pre & lst & ->).
  apply Forall_app in H as [_ Hl]. inversion Hl as [| ? ? [Hns Hk]%properSegment_inv _]; subst.
  assert (Hl' : lst <> "") by (by apply kept_nonempty).
  unfold absolutePath. destruct pre as [| x pre].
  - change (endsWithSlash ("/" +:+ lst) = false).
    rewrite endsWithSlash_app by done. by apply endsWithSlash_noSlash.
  - rewrite join_app by done. rewrite <- !app_assoc_s.
    rewrite endsWithSlash_app by done. by apply endsWithSlash_noSlash.
Qed.

Section Shape.
Variable cwd : string.
Variable rsegs : list string.
Hypothesis rsegs_nonempty : rsegs <> [].
Hypothesis rsegs_proper : Forall (fun x => properSegment x = true) rsegs.

(** What the tools resolve a candidate to, under a root that is a
    normalized absolute path: the normalized absolute path of its
    segments, without a closing slash. *)
Lemma join_shape (candidate : string) :
  let fullPath := path.join [absolutePath rsegs; stripSlashes candidate] in
  fullPath = absolutePath (key cwd fullPath) /\
  Forall (fun x => properSegment x = true) (key cwd fullPath) /\
  (key cwd fullPath <> [] -> endsWithSlash fullPath = false).
Proof.
  cbv zeta. set (np := stripSlashes candidate).
  assert (Hends : endsWithSlash
            (if decide (np = "") then absolutePath rsegs
             else absolutePath rsegs +:+ "/" +:+ np) = false).
  { destruct (decide (np = "")).
    - by apply endsWithSlash_absolutePath.
    - rewrite <- !app_assoc_s, endsWithSlash_app by done.
      apply stripSlashes_no_closing_slash. }
  rewrite join_two by done.
  assert (Ht : exists t, (if decide (np = "") then absolutePath rsegs
                          else absolutePath rsegs +:+ "/" +:+ np) = String slash t)
    by (destruct (decide (np = "")); eauto).
  destruct Ht as [t Ht]. rewrite Ht in *.
  destruct (normalize_absolute cwd t) as (_ & Hk & Hkept & Hns & _).
  pose proof (normalize_shape t) as Hsh. cbv zeta in Hsh.
  rewrite Hends in Hsh. rewrite Hk.
  set (segs := normalizeSegments false [] ("" :: split slash t)) in *.
  assert (Hp : Forall (fun x => properSegment x = true) segs).
  { apply Forall_forall. intros x Hx. apply properSegment_inv.
    rewrite Forall_forall in Hkept, Hns. split; auto. }
  assert (Hn : normalize (String slash t) = absolutePath segs).
  { rewrite Hsh. destruct (decide (segs = [])) as [-> | ?]; [done |].
    by rewrite app_empty_r. }
  split; [done |]. split; [done |]. rewrite Hn. intros Hne.
  by apply endsWithSlash_absolutePath.
Qed.

End Shape.





Lemma normalizedDirPath_strip (s : string) :
  (if String.eqb s "/" then "" else stripSlashes s) = stripSlashes s.
Proof. by destruct (String.eqb_spec s "/") as [-> | ?]. Qed.

Lemma absolutePath_app (A rest : list string) :
  A <> [] -> exists X, absolutePath (A ++ rest) = absolutePath A +:+ X.
Proof.
  intros HA. unfold absolutePath. destruct rest as [| r rest].
  - exists "". by rewrite app_nil_r, app_empty_r.
  - exists ("/" +:+ Array_join "/" (r :: rest)).
    rewrite join_app by done. by rewrite !app_assoc_s.
Qed.

Lemma join_absolute (t np : string) :
  exists t', path.join [String slash t; np] = normalize (String slash t').
Proof.
  rewrite join_two by done. destruct (decide (np = "")); eauto.
Qed.

Section GuardSound.
Variable cwd : string.
Variable rsegs : list string.
Hypothesis rsegs_nonempty : rsegs <> [].
Hypothesis rsegs_proper : Forall (fun x => properSegment x = true) rsegs.

(** A candidate without [..], joined to the root: the segments of the
    result are those of the root, then those of the candidate, and the
    result opens with the root as a string. *)
Lemma join_without_dotdot (candidate : string) :
  hasDotDot candidate = false ->
  let root := absolutePath rsegs in
  let fullPath := path.join [root; stripSlashes candidate] in
  key cwd fullPath = rsegs ++ segmentsOf candidate /\
  startsWith fullPath root = true.
Proof.
  intros Hdd. cbv zeta. unfold segmentsOf.
  set (np := stripSlashes candidate).
  set (root := absolutePath rsegs).
  assert (Hkey : key cwd (path.join [root; np]) =
                 rsegs ++ filter (fun x => isSkipped x = false) (split slash np)).
  { unfold root, absolutePath. change ("/" +:+ ?t) with (String slash t).
    rewrite key_join.
    change (String slash (Array_join "/" rsegs)) with (absolutePath rsegs).
    destruct (key_absolutePath cwd rsegs rsegs_proper) as [-> _].
    rewrite normalizeSegments_no_dotdot; [by rewrite rev_involutive |].
    apply Forall_forall. intros x Hx. apply split_stripSlashes in Hx.
    destruct (isDotDot x) eqn:E; [| done].
    apply String.eqb_eq in E. subst x.
    unfold hasDotDot in Hdd. by apply bool_decide_eq_false in Hdd. }
  split; [done |].
  destruct (join_absolute (Array_join "/" rsegs) np) as [t' Ht'].
  destruct (normalize_absolute cwd t') as (_ & Hk' & _ & _ & tail & _ & Hn).
  assert (Hk2 : normalizeSegments false [] ("" :: split slash t') =
                rsegs ++ filter (fun x => isSkipped x = false) (split slash np)).
  { rewrite <- Hk', <- Ht'. exact Hkey. }
  rewrite Hk2 in Hn.
  rewrite decide_False in Hn by (by destruct rsegs).
  change (path.join [root; np])
    with (path.join [String slash (Array_join "/" rsegs); np]).
  rewrite Ht', Hn.
  destruct (absolutePath_app rsegs
              (filter (fun x => isSkipped x = false) (split slash np))
              rsegs_nonempty) as [X ->].
  fold root. rewrite app_assoc_s. apply prefix_app.
Qed.

(** The guard lets every candidate without a [..] segment through. Under
    a root that is a normalized absolute path, [readObsidianFile],
    [obsidian-create] and [obsidian-update] on the one hand and
    [getObsidianFiles] on the other resolve such a candidate to the same
    path; its segments are those of the root followed by those of the
    candidate, empty and [.] segments left out, so it lies inside the
    root. *)
Theorem guard_passes_without_dotdot (candidate : string) :
  hasDotDot candidate = false ->
  let root := absolutePath rsegs in
  exists fullPath,
    resolveFile root candidate = Ok (stripSlashes candidate, fullPath) /\
    resolveDir root cwd (Str candidate) = Ok (stripSlashes candidate, fullPath) /\
    key cwd fullPath = rsegs ++ segmentsOf candidate /\
    liesInside cwd root fullPath = true.
Proof.
  intros Hdd. cbv zeta.
  destruct (join_without_dotdot candidate Hdd) as [Hkey Hstart].
  exists (path.join [absolutePath rsegs; stripSlashes candidate]).
  split; [| split; [| split]].
  - unfold resolveFile. by rewrite Hstart.
  - unfold resolveDir, firstOrSelf. cbv zeta. rewrite normalizedDirPath_strip.
    by rewrite Hstart.
  - done.
  - unfold liesInside. apply bool_decide_eq_true. rewrite Hkey.
    destruct (key_absolutePath cwd rsegs rsegs_proper) as [-> _].
    by apply prefix_app_r.
Qed.

(** With a closing slash on the root the guard is sound. When the
    configured root is a normalized absolute path followed by [/], every
    path the guard lets through, for a file or for a directory, lies
    inside the root, whatever the candidate. *)
Theorem guard_sound_with_closing_slash (candidate np fullPath : string) :
  let root := absolutePath rsegs +:+ "/" in
  resolveFile root candidate = Ok (np, fullPath) \/
  resolveDir root cwd (Str candidate) = Ok (np, fullPath) ->
  liesInside cwd root fullPath = true.
Proof.
  cbv zeta. set (root := absolutePath rsegs +:+ "/"). intros H.
  assert (Hfull : fullPath = path.join [root; np] /\ startsWith fullPath root = true).
  { destruct H as [H | H].
    - by apply GuardProps.resolveFile_ok in H as (_ & ? & ?).
    - by apply GuardProps.resolveDir_ok in H. }
  destruct Hfull as [-> Hstart].
  unfold liesInside. apply bool_decide_eq_true.
  destruct (key_absolutePath cwd rsegs rsegs_proper) as [_ Hroot].
  fold root in Hroot. rewrite Hroot.
  assert (Hr : root = String slash (Array_join "/" rsegs +:+ "/")) by done.
  rewrite Hr in Hstart |- *.
  destruct (join_absolute (Array_join "/" rsegs +:+ "/") np) as [t' Ht'].
  rewrite Ht' in Hstart |- *.
  destruct (normalize_absolute cwd t') as (_ & Hk' & Hkept & Hns & tail & Htail & Hn).
  rewrite Hk'. rewrite Hn in Hstart. unfold startsWith in Hstart.
  destruct (decide (normalizeSegments false [] ("" :: split slash t') = [])) as [E | Hne].
  - apply prefix_cons_inv in Hstart as [_ Hstart].
    apply prefix_empty_inv in Hstart. destruct (Array_join "/" rsegs); done.
  - unfold absolutePath in Hstart.
    change ("/" +:+ ?a +:+ tail) with (String slash (a +:+ tail)) in Hstart.
    apply prefix_cons_inv in Hstart as [_ Hstart].
    apply prefix_segments in Hstart; try done.
    + eapply Forall_impl; [exact rsegs_proper |]. by intros x [? _]%properSegment_inv.
    + eapply Forall_impl; [exact rsegs_proper |].
      intros x [_ ?]%properSegment_inv. by apply kept_nonempty.
Qed.

End GuardSound.


(** [/notes//a.md/] under the root [/vault]: the guard lets it through,
    for a file and for a directory, as [/vault/notes/a.md]. *)
Lemma guard_passes_without_dotdot_witness :
  exists fullPath,
    resolveFile (absolutePath ["vault"]) "/notes//a.md/" =
      Ok (stripSlashes "/notes//a.md/", fullPath) /\
    resolveDir (absolutePath ["vault"]) "/" (Str "/notes//a.md/") =
      Ok (stripSlashes "/notes//a.md/", fullPath) /\
    key "/" fullPath = ["vault"] ++ segmentsOf "/notes//a.md/" /\
    liesInside "/" (absolutePath ["vault"]) fullPath = true.
Proof.
  apply (guard_passes_without_dotdot "/" ["vault"]);
    [done | by repeat constructor | by vm_compute].
Defined.

(** [a.md] under the root [/vault/]: what the guard lets through lies
    inside the root. *)
Lemma guard_sound_with_closing_slash_witness :
  resolveFile "/vault/" "a.md" = Ok ("a.md", "/vault/a.md") /\
  liesInside "/" (absolutePath ["vault"] +:+ "/") "/vault/a.md" = true.
Proof.
  split; [by vm_compute |].
  apply (guard_sound_with_closing_slash "/" ["vault"]
           ltac:(by repeat constructor) "a.md" "a.md" "/vault/a.md").
  left. by vm_compute.
Defined.

End PathProps.

(** ** Creating files *)

Module CreateProps.
Import path Obsidian VaultPaths VaultExamples PathProps.
#[local] Arguments String.append !s1 s2 : simpl nomatch.

(** [fs.mkdir] with [recursive] never touches an entry that is there. *)
Lemma mkdirFrom_keeps (p : string) (above todo : list string)
    (fs : gmap (list string) node) (k : list string) (n : node) :
  fs !! k = Some n -> (fst (mkdirFrom p above todo fs)) !! k = Some n.
Proof.
  revert above fs. induction todo as [| seg todo IH]; intros above fs Hk; [done |].
  simpl. destruct (fs !! (above ++ [seg])) as [[| |] |] eqn:E; try done.
  - by apply IH.
  - apply IH. rewrite lookup_insert_ne; [done |]. intros <-. congruence.
Qed.


Lemma swallow_mkdir (cwd dirPath : string) (st : State) :
  try_catch (writing (fs_mkdir_recursive cwd dirPath)) (fun _ => ret tt) st =
  (set_vault (fst (fs_mkdir_recursive cwd dirPath (vault st))) st, Ok tt).
Proof.
  unfold try_catch, writing.
  by destruct (fs_mkdir_recursive cwd dirPath (vault st)) as [fs [[] | e]].
Qed.

Section Create.
Variables root cwd : string.
Variable toISOString : Z -> string.
Variable toLocaleString : Z -> string.

(** The run of [obsidian-create] once the guard has let the path
    through and the file is to be written: the directories are made, as
    far as they can be, the file is written and its size and birth time
    reported. *)
Lemma create_writes (filePath content : string) (overwrite : bool) (now : Z)
    (st : State) (np fullPath : string) (fs2 : gmap (list string) node)
    (written : node) :
  resolveFile root filePath = Ok (np, fullPath) ->
  (fs_access cwd (vault st) fullPath = Ok tt -> overwrite = true) ->
  fs_writeFile cwd fullPath content now
    (fst (fs_mkdir_recursive cwd (dirname fullPath) (vault st))) = (fs2, Ok tt) ->
  fs_stat cwd fs2 fullPath = Ok written ->
  obsidian_create root cwd toLocaleString filePath content overwrite now st =
  (set_vault fs2 st, createdText toLocaleString np written).
Proof.
  intros Hr Hov Hw Hs. unfold obsidian_create.
  erewrite bind_ok; [| unfold lift; by rewrite Hr]. cbv beta iota zeta.
  assert (Hex : exists e, try_catch
            (do! reading (fun fs => fs_access cwd fs fullPath) in ret true)
            (fun _ => ret false) st = (st, Ok e) /\ e && negb overwrite = false).
  { unfold try_catch, bind, reading, ret.
    destruct (fs_access cwd (vault st) fullPath) as [[] | e] eqn:E.
    - exists true. split; [done |]. by rewrite Hov.
    - by exists false. }
  destruct Hex as (e & Hex & He).
  erewrite bind_ok; [| exact Hex]. rewrite He.
  erewrite bind_ok; [| apply swallow_mkdir].
  erewrite bind_ok; [| unfold writing; simpl vault; by rewrite Hw].
  erewrite bind_ok; [| unfold reading; simpl vault; cbv beta; by rewrite Hs].
  done.
Qed.

(** Creating over an existing regular file, with [overwrite] set: the
    text is replaced, the birth time stays, entries that were there stay,
    the cache is not touched, and a read returns the new text. *)
Theorem create_overwrites (filePath content : string) (now : Z) (st : State)
    (np fullPath data : string) (m b : Z) :
  resolveFile root filePath = Ok (np, fullPath) ->
  fs_stat cwd (vault st) fullPath = Ok (File data m b) ->
  let out := obsidian_create root cwd toLocaleString filePath content true now st in
  snd out = createdText toLocaleString np (File content now b) /\
  vault (fst out) !! key cwd fullPath = Some (File content now b) /\
  (forall k n, k <> key cwd fullPath -> vault st !! k = Some n ->
     vault (fst out) !! k = Some n) /\
  resourceCache (fst out) = resourceCache st /\
  readObsidianFile root cwd toISOString filePath (vault (fst out)) =
    Ok {| content := content;
          fileInfo := {| name := basename fullPath; path := np;
                         isDirectory := false; size := utf8Length content;
                         modified := toISOString now |} |}.
Proof.
  intros Hr Hs. cbv zeta.
  set (fs1 := fst (fs_mkdir_recursive cwd (dirname fullPath) (vault st))).
  assert (Hs1 : fs_stat cwd fs1 fullPath = Ok (File data m b)).
  { unfold fs_stat in *. apply FileProps.lookupNode_file_inv in Hs as (Hk & Hl & Hsl).
    apply FileProps.lookupNode_file; [done | | done].
    by apply mkdirFrom_keeps. }
  pose proof (FileProps.writeFile_existing cwd fs1 fullPath data content m b now Hs1) as Hw.
  pose proof (FileProps.stat_after_write cwd fs1 "stat" fullPath data content m b now Hs1) as Hs2.
  rewrite (create_writes filePath content true now st np fullPath _ _ Hr (fun _ => eq_refl) Hw Hs2).
  simpl fst. simpl snd. simpl vault. simpl resourceCache.
  split; [done |]. split; [apply lookup_insert_eq |]. split; [| split; [done |]].
  - intros k n Hk Hn. rewrite lookup_insert_ne by done. by apply mkdirFrom_keeps.
  - by apply (FileProps.read_file root cwd toISOString _ _ _ _ _ _ _ Hr Hs2).
Qed.

End Create.



Section CreateNew.
Variables root cwd : string.
Variable toISOString : Z -> string.
Variable toLocaleString : Z -> string.


End CreateNew.

(** What [fs.mkdir] with [recursive] leaves at a key was there before, or
    is a directory it made where nothing was. *)
Lemma mkdirFrom_origin (p : string) (above todo : list string)
    (fs : gmap (list string) node) (k : list string) (n : node) :
  (fst (mkdirFrom p above todo fs)) !! k = Some n ->
  fs !! k = Some n \/ (fs !! k = None /\ n = Dir).
Proof.
  revert above fs. induction todo as [| seg todo IH]; intros above fs; [by left |].
  simpl. destruct (fs !! (above ++ [seg])) as [[| |] |] eqn:E; try (by left).
  - apply IH.
  - intros H. apply IH in H.
    destruct (decide (k = above ++ [seg])) as [-> | Hne].
    + rewrite lookup_insert_eq in H. right. destruct H as [[= <-] | [? ?]]; done.
    + by rewrite lookup_insert_ne in H.
Qed.

(** What [fs.writeFile] does to the file system: nothing, or one regular
    file is written, over a regular file or where nothing was. *)
Lemma writeFile_effect (cwd p data : string) (now : Z)
    (fs : gmap (list string) node) :
  fst (fs_writeFile cwd p data now fs) = fs \/
  (path.endsWithSlash p = false /\ key cwd p <> [] /\
   exists b, fst (fs_writeFile cwd p data now fs) = <[key cwd p := File data now b]> fs /\
     ((exists c m, fs !! key cwd p = Some (File c m b)) \/ fs !! key cwd p = None)).
Proof.
  unfold fs_writeFile. destruct (key cwd p) as [| x k] eqn:Ek; [by left |].
  destruct (fs !! (x :: k)) as [[c m b | | m] |] eqn:El.
  - destruct (endsWithSlash p) eqn:Es; [by left |]. right.
    split; [done |]. split; [done |]. exists b. split; [done |]. left. eauto.
  - by left.
  - by left.
  - destruct (if decide (removelast (x :: k) = []) then Some Dir
              else fs !! removelast (x :: k)) as [[| |] |]; try (by left).
    destruct (endsWithSlash p) eqn:Es; [by left |]. right.
    split; [done |]. split; [done |]. exists now. split; [done |]. by right.
Qed.

Section CreateSafety.
Variables root cwd : string.
Variable toLocaleString : Z -> string.

(** The vault after [obsidian-create]: as it was, or, when the guard lets
    the path through and the call is not refused for an existing file, as
    [fs.mkdir] and then [fs.writeFile] leave it. *)
Lemma create_vault (filePath content : string) (overwrite : bool) (now : Z)
    (st : State) :
  let out := obsidian_create root cwd toLocaleString filePath content overwrite now st in
  vault (fst out) = vault st \/
  exists fullPath,
    resolveFile root filePath = Ok (stripSlashes filePath, fullPath) /\
    (fs_access cwd (vault st) fullPath = Ok tt -> overwrite = true) /\
    vault (fst out) =
      fst (fs_writeFile cwd fullPath content now
             (fst (fs_mkdir_recursive cwd (dirname fullPath) (vault st)))).
Proof.
  cbv zeta. unfold obsidian_create.
  destruct (resolveFile root filePath) as [[np fullPath] | e] eqn:Hr.
  2:{ left. by erewrite bind_throw by (unfold lift; reflexivity). }
  pose proof (GuardProps.resolveFile_ok _ _ _ _ Hr) as (-> & _ & _).
  erewrite bind_ok; [| unfold lift; reflexivity]. cbv beta iota zeta.
  assert (Hex : exists e, try_catch
            (do! reading (fun fs => fs_access cwd fs fullPath) in ret true)
            (fun _ => ret false) st = (st, Ok e) /\
            (e = true <-> fs_access cwd (vault st) fullPath = Ok tt)).
  { unfold try_catch, bind, reading, ret.
    destruct (fs_access cwd (vault st) fullPath) as [[] | e] eqn:E.
    - by exists true.
    - exists false. split; [done |]. split; done. }
  destruct Hex as (e & Hex & He).
  erewrite bind_ok; [| exact Hex].
  destruct (e && negb overwrite) eqn:Eo; [by left |].
  right. exists fullPath. split; [done |]. split.
  { intros Ha. apply He in Ha. subst e. by destruct overwrite. }
  erewrite bind_ok; [| apply swallow_mkdir].
  set (fs1 := fst (fs_mkdir_recursive cwd (dirname fullPath) (vault st))).
  unfold bind at 1. unfold writing at 1. simpl vault.
  destruct (fs_writeFile cwd fullPath content now fs1) as [fs2 [[] | err]]; simpl fst.
  - unfold bind, reading, ret. simpl vault.
    by destruct (fs_stat cwd fs2 fullPath).
  - done.
Qed.

(** [obsidian-create] spares what is there. Whatever the arguments and
    the state, every entry of the vault is afterwards as it was, but one
    case: a regular file at the path the call resolves to, when
    [overwrite] is set, holds the new text and keeps its birth time.
    The cache is never touched. *)
Theorem create_spares_entries (filePath content : string) (overwrite : bool)
    (now : Z) (st : State) :
  let out := obsidian_create root cwd toLocaleString filePath content overwrite now st in
  resourceCache (fst out) = resourceCache st /\
  forall k n, vault st !! k = Some n ->
    vault (fst out) !! k = Some n \/
    (overwrite = true /\
     k = key cwd (path.join [root; stripSlashes filePath]) /\
     exists c m b, n = File c m b /\
       vault (fst out) !! k = Some (File content now b)).
Proof.
  cbv zeta. split; [apply CacheProps.create_keeps_cache |].
  intros k n Hk.
  destruct (create_vault filePath content overwrite now st)
    as [-> | (fullPath & Hr & Hov & ->)]; [by left |].
  pose proof (GuardProps.resolveFile_ok _ _ _ _ Hr) as (_ & <- & _).
  set (fs1 := fst (fs_mkdir_recursive cwd (dirname fullPath) (vault st))).
  assert (Hk1 : fs1 !! k = Some n) by (by apply mkdirFrom_keeps).
  destruct (writeFile_effect cwd fullPath content now fs1)
    as [-> | (Hs & Hne & b & -> & Hwas)]; [by left |].
  destruct (decide (k = key cwd fullPath)) as [-> | Hd].
  2:{ left. by rewrite lookup_insert_ne. }
  rewrite Hk1 in Hwas. destruct Hwas as [(c & m & [= ->]) | ?]; [| done].
  right. split.
  - apply Hov. unfold fs_access.
    by rewrite (FileProps.lookupNode_file cwd _ "access" _ c m b Hne Hk Hs).
  - split; [done |]. exists c, m, b. split; [done |]. apply lookup_insert_eq.
Qed.

End CreateSafety.

(** [create("a.md", "new", overwrite = true)] on the vault whose [a.md]
    reads "hello": the note holds "new" and keeps its birth time. *)
Lemma create_overwrites_witness :
  let out := obsidian_create "/vault" "/" (fun _ => "d") "a.md" "new" true 9
               hello_vault in
  vault hello_vault !! ["vault"; "a.md"] = Some (File "hello" 1 1) /\
  vault (fst out) !! key "/" "/vault/a.md" = Some (File "new" 9 1) /\
  snd out = createdText (fun _ => "d") "a.md" (File "new" 9 1).
Proof.
  cbv zeta. split; [by vm_compute |].
  destruct (create_overwrites "/vault" "/" (fun _ => "t") (fun _ => "d")
              "a.md" "new" 9 hello_vault "a.md" "/vault/a.md" "hello" 1 1)
    as (Htext & Hfile & _).
  - by vm_compute.
  - by vm_compute.
  - by split.
Defined.


End CreateProps.

(** ** What the tools answer *)

Module ToolProps.
Import path Obsidian VaultPaths VaultExamples PathProps CreateProps.
#[local] Arguments String.append !s1 s2 : simpl nomatch.

Section Tools.
Variables root cwd : string.
Variable toISOString : Z -> string.
Variable Date_parse : string -> Z.
Variable toLocaleString : Z -> string.

(** Slashes around a path do not count. *)
Theorem slashes_ignored (j k : nat) (c : string) (now : Z)
    (fs : gmap (list string) node) :
  let c' := slashes j +:+ c +:+ slashes k in
  stripSlashes c' = stripSlashes c /\
  resolveFile root c' = resolveFile root c /\
  readObsidianFile root cwd toISOString c' fs =
    readObsidianFile root cwd toISOString c fs /\
  (forall r, getObsidianFiles root cwd toISOString now (Str c') fs = Ok r <->
             getObsidianFiles root cwd toISOString now (Str c) fs = Ok r).
Proof.
  cbv zeta. pose proof (stripSlashes_slashes j k c) as Hs.
  split; [done |].
  assert (Hr : resolveFile root (slashes j +:+ c +:+ slashes k) = resolveFile root c)
    by (unfold resolveFile; by rewrite Hs).
  split; [done |]. split; [unfold readObsidianFile; by rewrite Hr |].
  intros r. unfold getObsidianFiles, resolveDir, firstOrSelf. cbv zeta.
  rewrite !normalizedDirPath_strip, Hs.
  by destruct (startsWith (path.join [root; stripSlashes c]) root).
Qed.

(** What [readObsidianFile] returns, when it returns: the text and the
    attributes of a regular file at a path the guard lets through. *)
Theorem read_ok_iff (filePath : string) (fs : gmap (list string) node)
    (d : FileData) :
  readObsidianFile root cwd toISOString filePath fs = Ok d <->
  exists fullPath data m b,
    resolveFile root filePath = Ok (stripSlashes filePath, fullPath) /\
    fs !! key cwd fullPath = Some (File data m b) /\
    key cwd fullPath <> [] /\ endsWithSlash fullPath = false /\
    d = {| content := data;
           fileInfo := {| name := basename fullPath; path := stripSlashes filePath;
                          isDirectory := false; size := utf8Length data;
                          modified := toISOString m |} |}.
Proof.
  split.
  - unfold readObsidianFile.
    destruct (resolveFile root filePath) as [[np fullPath] | e] eqn:Hr; [| done].
    simpl result_bind. pose proof (GuardProps.resolveFile_ok _ _ _ _ Hr) as (-> & _ & _).
    destruct (fs_stat cwd fs fullPath) as [[data m b | | m] | e] eqn:Hs; try done.
    simpl. unfold fs_readFile. unfold fs_stat in Hs.
    pose proof (FileProps.lookupNode_file_inv _ _ _ _ _ _ _ Hs) as (Hk & Hl & Hsl).
    rewrite (FileProps.lookupNode_file _ _ "open" _ _ _ _ Hk Hl Hsl). simpl.
    intros [= <-]. by exists fullPath, data, m, b.
  - intros (fullPath & data & m & b & Hr & Hl & Hk & Hsl & ->).
    apply (FileProps.read_file root cwd toISOString fs _ _ _ data m b Hr).
    by apply FileProps.lookupNode_file.
Qed.


(** Only [obsidian-create] and [obsidian-update] write to the vault. *)
Theorem other_requests_keep_vault (st : State) (req : request) :
  changesVault req = false ->
  vault (handle root cwd toISOString Date_parse toLocaleString st req) = vault st.
Proof.
  destruct req; simpl; try done; intros _.
  - unfold obsidian_list. by destruct (getObsidianFiles _ _ _ _ _ _).
  - unfold obsidian_read.
    by match goal with |- context [match ?r with Ok _ => _ | Throw _ => _ end] =>
      destruct r end.
  - unfold obsidian_search. by destruct (getObsidianFiles _ _ _ _ _ _).
  - unfold obsidian_view.
    destruct (resourceCache st !! _) as [[|] |]; try done.
    by destruct (readObsidianFile _ _ _ _ _).
  - unfold obsidian_content_search. by destruct (getObsidianFiles _ _ _ _ _ _).
Qed.

(** [obsidian-view] keeps to its first answer. A view of a path that is
    not in the cache and reads well puts the result in the cache; after
    any requests that are no resource fetch of its URI, whatever they
    write, a view of the same path gives the same text and changes
    nothing. A view that fails puts nothing in the cache. *)
Theorem view_keeps_first_answer (p : string) (st : State) (reqs : list request) :
  let uri := "obsidian://" +:+ p +:+ "/read" in
  let first := obsidian_view root cwd toISOString Date_parse toLocaleString p st in
  let later := foldl (handle root cwd toISOString Date_parse toLocaleString)
                 (fst first) reqs in
  resourceCache st !! uri = None ->
  Forall (fun req => fetchedUri req <> Some uri) reqs ->
  (forall d, readObsidianFile root cwd toISOString p (vault st) = Ok d ->
     snd first = viewText Date_parse toLocaleString d /\
     obsidian_view root cwd toISOString Date_parse toLocaleString p later =
       (later, snd first)) /\
  (forall e, readObsidianFile root cwd toISOString p (vault st) = Throw e ->
     first = (st, "Error reading file: " +:+ messageOf e)).
Proof.
  cbv zeta. intros Hc Hreqs. split.
  - intros d Hd.
    assert (Hfirst : obsidian_view root cwd toISOString Date_parse toLocaleString p st =
      (set_cache (<["obsidian://" +:+ p +:+ "/read" := CachedFile d]> (resourceCache st)) st,
       viewText Date_parse toLocaleString d))
      by (unfold obsidian_view; by rewrite Hc, Hd).
    rewrite Hfirst. simpl fst. simpl snd. split; [done |].
    unfold obsidian_view.
    rewrite (CacheProps.run_keeps_entry root cwd toISOString Date_parse
               toLocaleString _ (CachedFile d) reqs); [done | done |].
    simpl. apply lookup_insert_eq.
  - intros e He. unfold obsidian_view. by rewrite Hc, He.
Qed.

End Tools.

(** A view writes nothing to the vault. *)
Lemma other_requests_keep_vault_witness :
  vault (handle "/vault" "/" (fun _ => "t") (fun _ => 0) (fun _ => "d")
           hello_vault (View "a.md")) = vault hello_vault.
Proof.
  by apply (other_requests_keep_vault "/vault" "/" (fun _ => "t") (fun _ => 0)
              (fun _ => "d") hello_vault (View "a.md")).
Defined.

(** A view of [a.md], an update that appends "world", and a view again:
    the second view shows "hello" as the first one did, though the file
    now reads "hello", a newline, "world". *)
Lemma view_keeps_first_answer_witness :
  let first := obsidian_view "/vault" "/" (fun _ => "t") (fun _ => 0) (fun _ => "d")
                 "a.md" hello_vault in
  let later := handle "/vault" "/" (fun _ => "t") (fun _ => 0) (fun _ => "d")
                 (fst first) (Update "a.md" "world" true 9) in
  fs_readFile "/" (vault later) "/vault/a.md" = Ok ("hello" +:+ nl +:+ "world") /\
  snd (obsidian_view "/vault" "/" (fun _ => "t") (fun _ => 0) (fun _ => "d")
         "a.md" later) = snd first.
Proof.
  cbv zeta. split; [by vm_compute |].
  destruct (view_keeps_first_answer "/vault" "/" (fun _ => "t") (fun _ => 0)
              (fun _ => "d") "a.md" hello_vault [Update "a.md" "world" true 9])
    as [Hok _].
  - by vm_compute.
  - repeat constructor. discriminate.
  - destruct (Hok {| content := "hello";
                     fileInfo := {| name := "a.md"; path := "a.md";
                                    isDirectory := false; size := 5;
                                    modified := "t" |} |})
      as [_ Hview]; [by vm_compute |].
    cbn [foldl] in Hview. by rewrite Hview.
Defined.

End ToolProps.

(** ** The listing *)

Module ListingProps.
Import path Obsidian VaultPaths VaultExamples PathProps CreateProps ToolProps.
#[local] Arguments String.append !s1 s2 : simpl nomatch.

Lemma dropLeading_id (s : string) :
  startsWith s "/" = false -> dropLeadingSlashes s = s.
Proof.
  destruct s as [| c s]; [done |]. rewrite startsWith_cons. intros H.
  apply bool_decide_eq_false in H. simpl. by destruct (Ascii.eqb_spec c slash).
Qed.

Lemma stripSlashes_id (s : string) :
  startsWith s "/" = false -> endsWithSlash s = false -> stripSlashes s = s.
Proof.
  intros H1 H2. unfold stripSlashes, dropTrailingSlashes.
  rewrite (dropLeading_id s H1), (dropLeading_id _ H2). apply srev_involutive.
Qed.

Lemma join_segments_shape (segs : list string) :
  segs <> [] -> Forall (fun x => properSegment x = true) segs ->
  startsWith (Array_join "/" segs) "/" = false /\
  endsWithSlash (Array_join "/" segs) = false /\
  Array_join "/" segs <> "".
Proof.
  intros Hne H.
  assert (Hk : Forall (fun x => kept x = true) segs)
    by (eapply Forall_impl; [exact H | apply properSegment_kept]).
  pose proof (join_kept_nonempty segs Hne Hk) as Hj.
  split; [| split; [| done]].
  - destruct segs as [| x l]; [done |].
    inversion H as [| ? ? [Hns Hkx]%properSegment_inv Hl]; subst.
    pose proof (kept_nonempty _ Hkx) as Hx.
    destruct l as [| y l].
    + by apply noSlash_startsWith.
    + rewrite join_cons by done. rewrite startsWith_app by done.
      by apply noSlash_startsWith.
  - pose proof (endsWithSlash_absolutePath segs Hne H) as He.
    unfold absolutePath in He. by rewrite endsWithSlash_app in He.
Qed.

Lemma stripSlashes_segments (segs : list string) :
  Forall (fun x => properSegment x = true) segs ->
  stripSlashes (Array_join "/" segs) = Array_join "/" segs.
Proof.
  intros H. destruct (decide (segs = [])) as [-> | Hne]; [done |].
  destruct (join_segments_shape segs Hne H) as (? & ? & _).
  by apply stripSlashes_id.
Qed.

Lemma childName_spec (dir k : list string) (nm : string) :
  childName dir k = Some nm <-> k = dir ++ [nm].
Proof.
  revert k. induction dir as [| d dir IH]; intros k; simpl.
  - destruct k as [| x [| y k]]; split; try done; by intros [= ->].
  - destruct k as [| x k]; [split; [done | by destruct dir] |].
    destruct (String.eqb_spec d x) as [-> | Hne].
    + rewrite IH. split; [by intros -> | by intros [= ->]].
    + split; [done | intros [= -> _]; done].
Qed.

Lemma mapM_ok {A B} (f : A -> result B) (g : A -> B) (l : list A) :
  (forall x, x ∈ l -> f x = Ok (g x)) -> mapM f l = Ok (map g l).
Proof.
  induction l as [| x l IH]; intros H; simpl; [done |].
  rewrite (H x) by apply list_elem_of_here. simpl.
  rewrite IH; [done |]. intros y Hy. apply H. by apply list_elem_of_further.
Qed.

Lemma dropCommon_app (a b : list string) : dropCommon a (a ++ b) = ([], b).
Proof.
  induction a as [| x a IH]; simpl; [by destruct b |]. by rewrite String.eqb_refl.
Qed.

Lemma basename_absolutePath (segs : list string) (nm : string) :
  Forall (fun x => properSegment x = true) (segs ++ [nm]) ->
  basename (absolutePath (segs ++ [nm])) = nm.
Proof.
  intros H.
  assert (Hn : Forall (fun x => noSlash x = true) (segs ++ [nm])).
  { eapply Forall_impl; [exact H |]. by intros x [? _]%properSegment_inv. }
  assert (Hk : Forall (fun x => x <> "") (segs ++ [nm])).
  { eapply Forall_impl; [exact H |].
    intros x [_ ?]%properSegment_inv. by apply kept_nonempty. }
  unfold basename, absolutePath. change ("/" +:+ ?t) with (String slash t).
  rewrite split_absolute, split_join by (done || by destruct segs).
  rewrite filter_cons_False by (intros E; by apply E).
  assert (Hf : filter (fun seg => seg <> "") (segs ++ [nm]) = segs ++ [nm]).
  { clear H Hn. induction Hk as [| x l Hx Hl IH]; [done |].
    by rewrite filter_cons_True, IH. }
  by rewrite Hf, last_snoc.
Qed.

Lemma lookupNode_dir (cwd : string) (fs : gmap (list string) node)
    (syscall p : string) :
  fs !! key cwd p = Some Dir -> lookupNode cwd fs syscall p = Ok Dir.
Proof.
  intros H. unfold lookupNode. destruct (key cwd p) as [| x k]; [done |].
  by rewrite H.
Qed.

Lemma lookupNode_entry (cwd : string) (fs : gmap (list string) node)
    (syscall p : string) (n : node) :
  key cwd p <> [] -> fs !! key cwd p = Some n -> endsWithSlash p = false ->
  lookupNode cwd fs syscall p = Ok n.
Proof.
  intros Hk Hl Hs. unfold lookupNode. destruct (key cwd p) as [| x k]; [done |].
  rewrite Hl, Hs. by destruct n.
Qed.

Section Listing.
Variable cwd : string.
Variable toISOString : Z -> string.
Variable rsegs : list string.
Hypothesis rsegs_nonempty : rsegs <> [].
Hypothesis rsegs_proper : Forall (fun x => properSegment x = true) rsegs.

(** An entry of a directory, as a path. *)
Lemma join_child (dkey : list string) (nm : string) :
  dkey <> [] -> Forall (fun x => properSegment x = true) dkey ->
  properSegment nm = true ->
  path.join [absolutePath dkey; nm] = absolutePath (dkey ++ [nm]) /\
  key cwd (absolutePath (dkey ++ [nm])) = dkey ++ [nm] /\
  endsWithSlash (absolutePath (dkey ++ [nm])) = false.
Proof.
  intros Hne Hd Hnm.
  assert (Hall : Forall (fun x => properSegment x = true) (dkey ++ [nm]))
    by (apply Forall_app; split; [done | by constructor]).
  destruct (properSegment_inv nm) as [Hinv _]. destruct (Hinv Hnm) as [Hns Hk].
  pose proof (join_shape cwd dkey Hne Hd nm) as Hs. cbv zeta in Hs.
  assert (Hstrip : stripSlashes nm = nm).
  { apply (stripSlashes_segments [nm]). by constructor. }
  rewrite Hstrip in Hs. destruct Hs as (Heq & _ & _).
  assert (Hkey : key cwd (path.join [absolutePath dkey; nm]) = dkey ++ [nm]).
  { unfold absolutePath. change ("/" +:+ ?t) with (String slash t).
    rewrite key_join.
    change (String slash (Array_join "/" dkey)) with (absolutePath dkey).
    destruct (key_absolutePath cwd dkey Hd) as [-> _].
    rewrite split_noSlash by done.
    rewrite normalizeSegments_kept by (by constructor).
    by rewrite rev_involutive. }
  rewrite Hkey in Heq. rewrite Heq.
  split; [done |]. split.
  - by destruct (key_absolutePath cwd _ Hall) as [-> _].
  - apply endsWithSlash_absolutePath; [by destruct dkey | done].
Qed.

Lemma relative_below (below : list string) :
  below <> [] ->
  Forall (fun x => properSegment x = true) (rsegs ++ below) ->
  relative cwd (absolutePath rsegs) (absolutePath (rsegs ++ below)) =
  Array_join "/" below.
Proof.
  intros Hne Hall. unfold relative.
  destruct (key_absolutePath cwd rsegs rsegs_proper) as [Hk1 _].
  destruct (key_absolutePath cwd _ Hall) as [Hk2 _].
  destruct (String.eqb_spec (absolutePath rsegs) (absolutePath (rsegs ++ below)))
    as [E | _].
  - exfalso. rewrite E, Hk2 in Hk1.
    apply (f_equal length) in Hk1. rewrite length_app in Hk1.
    destruct below; [done | simpl in Hk1; lia].
  - unfold key in Hk1, Hk2. rewrite Hk1, Hk2, dropCommon_app. done.
Qed.

Lemma children_spec (fs : gmap (list string) node) (dkey : list string)
    (nm : string) (n : node) :
  (nm, n) ∈ omap (fun '(k, n) => nm ← childName dkey k; Some (nm, n)) (map_to_list fs)
  <-> fs !! (dkey ++ [nm]) = Some n.
Proof.
  rewrite list_elem_of_omap. split.
  - intros ([k n'] & Hin & Hc). apply elem_of_map_to_list in Hin.
    destruct (childName dkey k) as [nm' |] eqn:E; [| done].
    simpl in Hc. injection Hc as -> ->.
    apply childName_spec in E. by subst k.
  - intros H. exists (dkey ++ [nm], n). split; [by apply elem_of_map_to_list |].
    by rewrite (proj2 (childName_spec dkey _ nm) eq_refl).
Qed.

Lemma listing_spec (candidate : string) (now : Z) (fs : gmap (list string) node) :
  let root := absolutePath rsegs in
  let below := segmentsOf candidate in
  hasDotDot candidate = false ->
  wellFormed fs ->
  fs !! (rsegs ++ below) = Some Dir ->
  Forall (fun x => properSegment x = true) (rsegs ++ below) /\
  getObsidianFiles root cwd toISOString now (Str candidate) fs =
    Ok {| files := map (entryInfo toISOString below now)
                     (omap (fun '(k, n) => nm ← childName (rsegs ++ below) k; Some (nm, n))
                        (map_to_list fs));
          currentPath := stripSlashes candidate |}.
Proof.
  cbv zeta. intros Hdd Hwf Hdir.
  destruct (join_without_dotdot cwd rsegs rsegs_nonempty rsegs_proper candidate Hdd)
    as [Hkey Hstart]. cbv zeta in Hkey, Hstart.
  set (fullPath := path.join [absolutePath rsegs; stripSlashes candidate]) in *.
  assert (Hr : resolveDir (absolutePath rsegs) cwd (Str candidate) =
               Ok (stripSlashes candidate, fullPath)).
  { unfold resolveDir, firstOrSelf. cbv zeta. rewrite normalizedDirPath_strip.
    fold fullPath. by rewrite Hstart. }
  set (below := segmentsOf candidate) in *.
  pose proof (join_shape cwd rsegs rsegs_nonempty rsegs_proper candidate) as Hs.
  cbv zeta in Hs.
  fold fullPath in Hs. rewrite Hkey in Hs. destruct Hs as (Hshape & Hproper & _).
  split; [done |].
  assert (Hdne : rsegs ++ below <> []) by (by destruct rsegs).
  unfold getObsidianFiles. rewrite Hr. simpl result_bind.
  unfold fs_readdir. rewrite lookupNode_dir by (by rewrite Hkey).
  simpl result_bind. rewrite Hkey.
  erewrite mapM_ok; [reflexivity |].
  intros [nm n] Hin. apply children_spec in Hin.
  assert (Hnm : properSegment nm = true).
  { specialize (Hwf _ _ Hin). simpl in Hwf.
    apply Forall_app in Hwf as [_ Hwf]. by inversion Hwf. }
  destruct (join_child _ nm Hdne Hproper Hnm) as (Hj & Hk & He).
  rewrite Hshape, Hj. cbv zeta.
  assert (Hrel : relative cwd (absolutePath rsegs) (absolutePath ((rsegs ++ below) ++ [nm]))
                 = Array_join "/" (below ++ [nm])).
  { rewrite <- app_assoc. apply relative_below; [by destruct below |].
    rewrite app_assoc. apply Forall_app. split; [done | by constructor]. }
  rewrite Hrel. unfold entryInfo. simpl.
  assert (Hst : fs_stat cwd fs (absolutePath ((rsegs ++ below) ++ [nm])) = Ok n).
  { apply lookupNode_entry; [| by rewrite Hk | done].
    rewrite Hk. by destruct (rsegs ++ below). }
  rewrite Hst. by destruct n.
Qed.

(** A listing holds the direct children of the directory, and nothing
    else. For a candidate without [..] that names a directory of a
    well-formed vault, [getObsidianFiles] returns; an entry is in [files]
    exactly when the directory holds a child of that name, and then it has
    the child's name, its path from the vault root, its kind, the size and
    the modification time of a file, or size 0 and the time of the call
    for a directory. *)
Theorem listing_children (candidate : string) (now : Z)
    (fs : gmap (list string) node) :
  let root := absolutePath rsegs in
  let below := segmentsOf candidate in
  hasDotDot candidate = false ->
  wellFormed fs ->
  fs !! (rsegs ++ below) = Some Dir ->
  exists r,
    getObsidianFiles root cwd toISOString now (Str candidate) fs = Ok r /\
    currentPath r = stripSlashes candidate /\
    forall info, info ∈ files r <->
      exists nm n,
        fs !! (rsegs ++ below ++ [nm]) = Some n /\
        info = {| name := nm;
                  path := Array_join "/" (below ++ [nm]);
                  isDirectory := isDir n;
                  size := match n with File data _ _ => utf8Length data | _ => 0 end;
                  modified := toISOString (match n with
                                           | File _ m _ | Special m => m
                                           | Dir => now
                                           end) |}.
Proof.
  cbv zeta. intros Hdd Hwf Hdir.
  destruct (listing_spec candidate now fs Hdd Hwf Hdir) as (_ & Hl).
  eexists. split; [exact Hl |]. split; [done |]. simpl files.
  intros info. rewrite list_elem_of_fmap. split.
  - intros ([nm n] & -> & Hin). apply children_spec in Hin.
    exists nm, n. rewrite <- app_assoc in Hin. split; [done |].
    unfold entryInfo. simpl. by destruct n.
  - intros (nm & n & Hin & ->). exists (nm, n). split.
    + unfold entryInfo. simpl. by destruct n.
    + apply children_spec. by rewrite <- app_assoc.
Qed.

(** The listing and the read agree. A regular file of the listed
    directory has an entry in the listing, and the path of that entry
    reads the file back: [readObsidianFile] returns the text of the file
    with the very attributes the listing shows. *)
Theorem listing_read_agree (candidate : string) (now : Z)
    (fs : gmap (list string) node) (nm data : string) (m b : Z) :
  let root := absolutePath rsegs in
  let below := segmentsOf candidate in
  hasDotDot candidate = false ->
  wellFormed fs ->
  fs !! (rsegs ++ below) = Some Dir ->
  fs !! (rsegs ++ below ++ [nm]) = Some (File data m b) ->
  exists r info,
    getObsidianFiles root cwd toISOString now (Str candidate) fs = Ok r /\
    info ∈ files r /\ name info = nm /\
    readObsidianFile root cwd toISOString (path info) fs =
      Ok {| content := data; fileInfo := info |}.
Proof.
  cbv zeta. intros Hdd Hwf Hdir Hfile.
  destruct (listing_spec candidate now fs Hdd Hwf Hdir) as (Hproper & Hl).
  set (below := segmentsOf candidate) in *.
  eexists. exists (entryInfo toISOString below now (nm, File data m b)).
  split; [exact Hl |]. split.
  { simpl files. apply list_elem_of_fmap. exists (nm, File data m b).
    split; [done |]. apply children_spec. by rewrite <- app_assoc. }
  split; [done |]. simpl path.
  assert (Hnm : properSegment nm = true).
  { specialize (Hwf _ _ Hfile). simpl in Hwf. rewrite app_assoc in Hwf.
    apply Forall_app in Hwf as [_ Hwf]. by inversion Hwf. }
  assert (Hb : Forall (fun x => properSegment x = true) (below ++ [nm])).
  { apply Forall_app in Hproper as [_ Hb]. apply Forall_app. split; [done | by constructor]. }
  assert (Hbne : below ++ [nm] <> []) by (by destruct below).
  assert (Hbn : Forall (fun x => noSlash x = true) (below ++ [nm])).
  { eapply Forall_impl; [exact Hb |]. by intros x [? _]%properSegment_inv. }
  set (c := Array_join "/" (below ++ [nm])).
  assert (Hstrip : stripSlashes c = c) by (by apply stripSlashes_segments).
  assert (Hsplit : split slash c = below ++ [nm]) by (by apply split_join).
  assert (Hdd' : hasDotDot c = false).
  { unfold hasDotDot. apply bool_decide_eq_false. rewrite Hsplit. intros Hin.
    rewrite Forall_forall in Hb. specialize (Hb _ Hin). done. }
  destruct (join_without_dotdot cwd rsegs rsegs_nonempty rsegs_proper c Hdd')
    as [Hkey Hstart]. cbv zeta in Hkey, Hstart.
  set (fullPath := path.join [absolutePath rsegs; stripSlashes c]) in *.
  assert (Hr : resolveFile (absolutePath rsegs) c = Ok (stripSlashes c, fullPath)).
  { unfold resolveFile. fold fullPath. by rewrite Hstart. }
  unfold segmentsOf in Hkey. rewrite Hstrip, Hsplit in Hkey.
  assert (Hf : filter (fun x => isSkipped x = false) (below ++ [nm]) = below ++ [nm]).
  { clear -Hb. induction Hb as [| x l Hx Hl IH]; [done |].
    apply properSegment_inv in Hx as [_ Hx]. unfold kept in Hx.
    rewrite filter_cons_True, IH; [done |]. by destruct (isSkipped x). }
  rewrite Hf in Hkey.
  pose proof (join_shape cwd rsegs rsegs_nonempty rsegs_proper c) as Hs.
  cbv zeta in Hs.
  fold fullPath in Hs. rewrite Hkey in Hs. destruct Hs as (Hshape & _ & Hends).
  assert (Hne : rsegs ++ below ++ [nm] <> []) by (by destruct rsegs).
  rewrite (FileProps.read_file _ cwd toISOString fs c _ fullPath data m b Hr).
  2:{ apply lookupNode_entry; [by rewrite Hkey | by rewrite Hkey | by apply Hends]. }
  rewrite Hstrip. unfold entryInfo. simpl. do 3 f_equal.
  rewrite Hshape, app_assoc. apply basename_absolutePath.
  rewrite <- app_assoc. apply Forall_app. split; [done | done].
Qed.

End Listing.

Lemma search_vault_wellFormed : wellFormed search_vault.
Proof.
  unfold wellFormed. apply map_Forall_to_list. vm_compute. repeat constructor.
Qed.

(** The listing of the root of the vault with three notes and a socket:
    [plan.txt] is in it, with its size and time. *)
Lemma listing_children_witness :
  exists r,
    getObsidianFiles (absolutePath ["vault"]) "/" (fun _ => "t") 9 (Str "") search_vault
      = Ok r /\
    {| name := "plan.txt"; path := "plan.txt"; isDirectory := false; size := 12;
       modified := "t" |} ∈ files r.
Proof.
  destruct (listing_children "/" (fun _ => "t") ["vault"] ltac:(done)
              ltac:(by repeat constructor) "" 9 search_vault)
    as (r & Hr & _ & Hin).
  - by vm_compute.
  - apply search_vault_wellFormed.
  - by vm_compute.
  - exists r. split; [exact Hr |]. apply Hin.
    exists "plan.txt", (File "my todo list" 4 4). split; by vm_compute.
Defined.

(** [plan.txt] of that listing, read back through its path. *)
Lemma listing_read_agree_witness :
  exists r info,
    getObsidianFiles (absolutePath ["vault"]) "/" (fun _ => "t") 9 (Str "") search_vault
      = Ok r /\
    info ∈ files r /\ name info = "plan.txt" /\
    readObsidianFile (absolutePath ["vault"]) "/" (fun _ => "t") (path info) search_vault =
      Ok {| content := "my todo list"; fileInfo := info |}.
Proof.
  apply (listing_read_agree "/" (fun _ => "t") ["vault"] ltac:(done)
           ltac:(by repeat constructor) "" 9 search_vault "plan.txt" "my todo list" 4 4).
  - by vm_compute.
  - apply search_vault_wellFormed.
  - by vm_compute.
  - by vm_compute.
Defined.

End ListingProps.
